(** * option-pricer: Black-Scholes pricer, Greeks, Monte Carlo pricer and
      implied-volatility solver

    A shallow embedding of [option_pricer.py], [greeks.py], [monte_carlo.py],
    [implied_volatility.py] and the grid generator of [heatmaps.py].

    Modelling conventions.
    - Python floats are idealised as the real numbers [R]; rounding, overflow
      and the special values inf/nan of IEEE arithmetic are outside the model,
      except for the nan that [np.mean] returns on an empty array.
    - A Python call either returns a value or raises: [pyresult].
    - [scipy.stats.norm], [numpy.random] and [scipy.optimize.minimize_scalar]
      are library code; they enter as interfaces ([StdNormal], [NumpyRandom],
      [ScalarMinimizer]) and each interface is inhabited further down. *)

From Stdlib Require Import Reals Lra Lia ZArith List Zfloor.
From Stdlib Require String.
Import ListNotations.
Local Open Scope R_scope.

(** ** Python results *)

Inductive pyexn : Type :=
| ZeroDivisionError
| ValueError
| IndexError.

Inductive pyresult (A : Type) : Type :=
| Ok (a : A)
| Raise (e : pyexn).

Arguments Ok {A} a.
Arguments Raise {A} e.

Definition bind {A B : Type} (c : pyresult A) (k : A -> pyresult B) : pyresult B :=
  match c with
  | Ok a => k a
  | Raise e => Raise e
  end.

Notation "x <- c ;; k" := (bind c (fun x => k))
  (at level 61, c at next level, right associativity).

Definition returns {A : Type} (c : pyresult A) : Prop := exists a, c = Ok a.

Definition raises {A : Type} (c : pyresult A) : Prop := exists e, c = Raise e.

(** ** The [math] module and float division *)

(** [a / b] on floats *)
Definition truediv (a b : R) : pyresult R :=
  if Req_dec_T b 0 then Raise ZeroDivisionError else Ok (a / b).

(** [math.log(x)] *)
Definition math_log (x : R) : pyresult R :=
  if Rle_dec x 0 then Raise ValueError else Ok (ln x).

(** [math.sqrt(x)] *)
Definition math_sqrt (x : R) : pyresult R :=
  if Rlt_dec x 0 then Raise ValueError else Ok (sqrt x).

(** [int(x)] on a float: truncation toward zero *)
Definition int_of_float (x : R) : Z :=
  if Rle_dec 0 x then Zfloor x else Zceil x.

(** ** [scipy.stats.norm] *)

(** The standard normal law as the code uses it: [norm.cdf] and [norm.pdf].
    The density is a positive multiple of [exp (- x^2 / 2)] (for scipy the
    factor is [1 / sqrt (2 * PI)]), the distribution function is a primitive
    of the density, takes its values in [[0, 1]] and is symmetric. *)
Class StdNormal : Type := {
  norm_cdf : R -> R;
  norm_pdf : R -> R;
  norm_pdf_0 : 0 < norm_pdf 0;
  norm_pdf_gauss : forall x, norm_pdf x = norm_pdf 0 * exp (- (x * x) / 2);
  norm_cdf_deriv : forall x, derivable_pt_lim norm_cdf x (norm_pdf x);
  norm_cdf_range : forall x, 0 <= norm_cdf x <= 1;
  norm_cdf_sym : forall x, norm_cdf (- x) = 1 - norm_cdf x
}.

(** ** option_pricer.py and greeks.py *)

Section Analytical.
Context {N01 : StdNormal}.

(** The expression
    [(math.log(S / K) + (r + 0.5 * sigma**2) * T) / (sigma * math.sqrt(T))]
    that every function below evaluates first. *)
Definition d1_expr (S K T r sigma : R) : pyresult R :=
  q <- truediv S K ;;
  l <- math_log q ;;
  s <- math_sqrt T ;;
  truediv (l + (r + 0.5 * sigma ^ 2) * T) (sigma * s).

(** The expression of [rho_call] and [rho_put]:
    [(math.log(S / K) + (r - 0.5 * sigma**2) * T) / (sigma * math.sqrt(T))] *)
Definition d2_expr (S K T r sigma : R) : pyresult R :=
  q <- truediv S K ;;
  l <- math_log q ;;
  s <- math_sqrt T ;;
  truediv (l + (r - 0.5 * sigma ^ 2) * T) (sigma * s).

Definition black_scholes_call (S K T r sigma : R) : pyresult R :=
  d1 <- d1_expr S K T r sigma ;;
  s <- math_sqrt T ;;
  let d2 := d1 - sigma * s in
  Ok (S * norm_cdf d1 - K * exp (- r * T) * norm_cdf d2).

Definition black_scholes_put (S K T r sigma : R) : pyresult R :=
  d1 <- d1_expr S K T r sigma ;;
  s <- math_sqrt T ;;
  let d2 := d1 - sigma * s in
  Ok (K * exp (- r * T) * norm_cdf (- d2) - S * norm_cdf (- d1)).

End Analytical.

Module OptionGreeks.
Section Greeks.
Context {N01 : StdNormal}.

Definition delta_call (S K T r sigma : R) : pyresult R :=
  d1 <- d1_expr S K T r sigma ;;
  Ok (norm_cdf d1).

Definition delta_put (S K T r sigma : R) : pyresult R :=
  d1 <- d1_expr S K T r sigma ;;
  Ok (norm_cdf d1 - 1).

Definition gamma (S K T r sigma : R) : pyresult R :=
  d1 <- d1_expr S K T r sigma ;;
  s <- math_sqrt T ;;
  truediv (norm_pdf d1) (S * sigma * s).

Definition vega (S K T r sigma : R) : pyresult R :=
  d1 <- d1_expr S K T r sigma ;;
  s <- math_sqrt T ;;
  Ok (S * norm_pdf d1 * s / 100).

Definition theta_call (S K T r sigma : R) : pyresult R :=
  d1 <- d1_expr S K T r sigma ;;
  s <- math_sqrt T ;;
  let d2 := d1 - sigma * s in
  s' <- math_sqrt T ;;
  t1 <- truediv (- S * norm_pdf d1 * sigma) (2 * s') ;;
  Ok ((t1 - r * K * exp (- r * T) * norm_cdf d2) / 365).

Definition theta_put (S K T r sigma : R) : pyresult R :=
  d1 <- d1_expr S K T r sigma ;;
  s <- math_sqrt T ;;
  let d2 := d1 - sigma * s in
  s' <- math_sqrt T ;;
  t1 <- truediv (- S * norm_pdf d1 * sigma) (2 * s') ;;
  Ok ((t1 + r * K * exp (- r * T) * norm_cdf (- d2)) / 365).

Definition rho_call (S K T r sigma : R) : pyresult R :=
  d2 <- d2_expr S K T r sigma ;;
  Ok (K * T * exp (- r * T) * norm_cdf d2 / 100).

Definition rho_put (S K T r sigma : R) : pyresult R :=
  d2 <- d2_expr S K T r sigma ;;
  Ok (- K * T * exp (- r * T) * norm_cdf (- d2) / 100).

End Greeks.
End OptionGreeks.

(** ** numpy: arrays, reductions and the global random state *)

(** A numpy float64 scalar; [NaN] is what [np.mean] gives on an empty array. *)
Inductive npfloat : Type :=
| Fin (x : R)
| NaN.

Definition npfloat_scale (c : R) (y : npfloat) : npfloat :=
  match y with
  | Fin x => Fin (c * x)
  | NaN => NaN
  end.

(** [np.mean(a)] of a one-dimensional array *)
Definition np_mean (a : list R) : npfloat :=
  match a with
  | [] => NaN
  | _ :: _ => Fin (fold_right Rplus 0 a / INR (length a))
  end.

(** The two-dimensional array [paths] is read and written by whole columns
    only ([paths[:, t]]), so it is kept as the list of its columns: an array
    of shape [(n, m)] is a list of [m] columns of [n] entries each. *)
Definition ndarray : Type := list (list R).

(** [np.zeros((n, m))] *)
Definition np_zeros (n m : Z) : pyresult ndarray :=
  if ((n <? 0)%Z || (m <? 0)%Z)%bool then Raise ValueError
  else Ok (repeat (repeat 0 (Z.to_nat n)) (Z.to_nat m)).

(** [a[:, t]] for [t >= 0] *)
Definition get_col (a : ndarray) (t : nat) : pyresult (list R) :=
  match nth_error a t with
  | Some c => Ok c
  | None => Raise IndexError
  end.

(** [a[:, -1]] *)
Definition get_last_col (a : ndarray) : pyresult (list R) :=
  match a with
  | [] => Raise IndexError
  | _ :: _ => get_col a (length a - 1)
  end.

Fixpoint replace_nth {A : Type} (l : list A) (t : nat) (v : A) : list A :=
  match l, t with
  | [], _ => []
  | _ :: l', O => v :: l'
  | c :: l', S t' => c :: replace_nth l' t' v
  end.

(** [a[:, t] = col] for [t >= 0] *)
Definition set_col (a : ndarray) (t : nat) (col : list R) : pyresult ndarray :=
  if (t <? length a)%nat then Ok (replace_nth a t col) else Raise IndexError.

(** [a[:, t] = v], the scalar [v] broadcast over the column *)
Definition fill_col (a : ndarray) (t : nat) (v : R) : pyresult ndarray :=
  c <- get_col a t ;;
  set_col a t (map (fun _ => v) c).

(** The legacy global generator of [numpy.random]: the state that
    [np.random.seed(seed)] installs, and [np.random.standard_normal(n)],
    which returns [n] draws and the advanced state. *)
Class NumpyRandom : Type := {
  rng_state : Type;
  seed_state : Z -> rng_state;
  standard_normal : nat -> rng_state -> list R * rng_state
}.

(** ** monte_carlo.py *)

(** [dt = T / 252] *)
Definition mc_dt (T : R) : R := T / 252.

(** [steps = int(T * 252)] *)
Definition mc_steps (T : R) : Z := int_of_float (T * 252).

Section MonteCarlo.
Context {RNG : NumpyRandom}.

(** Computations that read and write the process-wide generator state and
    may raise. *)
Definition M (A : Type) : Type := rng_state -> pyresult A * rng_state.

Definition ret {A : Type} (a : A) : M A := fun g => (Ok a, g).

Definition lift {A : Type} (c : pyresult A) : M A := fun g => (c, g).

Definition bindM {A B : Type} (c : M A) (k : A -> M B) : M B :=
  fun g =>
    match c g with
    | (Ok a, g') => k a g'
    | (Raise e, g') => (Raise e, g')
    end.

Notation "x <~ c ;; k" := (bindM c (fun x => k))
  (at level 61, c at next level, right associativity).

(** [np.random.seed(seed)]: the seed must lie in [[0, 2**32 - 1]] *)
Definition np_random_seed (seed : Z) : M unit :=
  fun g =>
    if ((0 <=? seed)%Z && (seed <? 2 ^ 32)%Z)%bool then (Ok tt, seed_state seed)
    else (Raise ValueError, g).

(** [np.random.standard_normal(N)] on the global state *)
Definition np_random_standard_normal (n : Z) : M (list R) :=
  fun g =>
    if (n <? 0)%Z then (Raise ValueError, g)
    else let (z, g') := standard_normal (Z.to_nat n) g in (Ok z, g').

(** [for t in ts: paths = body t paths] *)
Fixpoint for_each (ts : list nat) (body : nat -> ndarray -> M ndarray)
    (paths : ndarray) : M ndarray :=
  match ts with
  | [] => ret paths
  | t :: ts' => paths' <~ body t paths ;; for_each ts' body paths'
  end.

(** [range(1, steps + 1)] *)
Definition range_1 (steps : Z) : list nat := seq 1 (Z.to_nat steps).

(** One iteration of the path loop:
    [Z = np.random.standard_normal(N)] and
    [paths[:, t] = paths[:, t-1] * np.exp((r - 0.5 * sigma**2) * dt
                                         + sigma * np.sqrt(dt) * Z)].
    The loop only runs when [steps >= 1], which forces [dt > 0], so
    [np.sqrt(dt)] is the real square root there. *)
Definition gbm_step (r sigma dt : R) (N : Z) (t : nat) (paths : ndarray)
  : M ndarray :=
  Z <~ np_random_standard_normal N ;;
  prev <~ lift (get_col paths (t - 1)) ;;
  lift (set_col paths t
          (map (fun pz => fst pz *
                  exp ((r - 0.5 * sigma ^ 2) * dt + sigma * sqrt dt * snd pz))
               (combine prev Z))).

(** The part that [monte_carlo_call] and [monte_carlo_put] have in common,
    from [np.random.seed(seed)] to the end of the path loop. *)
Definition simulate_paths (S T r sigma : R) (N seed : Z) : M ndarray :=
  _ <~ np_random_seed seed ;;
  let dt := mc_dt T in
  let steps := mc_steps T in
  paths <~ lift (np_zeros N (steps + 1)) ;;
  paths <~ lift (fill_col paths 0 S) ;;
  for_each (range_1 steps) (gbm_step r sigma dt N) paths.

Definition monte_carlo_call (S K T r sigma : R) (N seed : Z) : M npfloat :=
  paths <~ simulate_paths S T r sigma N seed ;;
  last <~ lift (get_last_col paths) ;;
  let payoffs := map (fun x => Rmax (x - K) 0) last in
  ret (npfloat_scale (exp (- r * T)) (np_mean payoffs)).

Definition monte_carlo_put (S K T r sigma : R) (N seed : Z) : M npfloat :=
  paths <~ simulate_paths S T r sigma N seed ;;
  last <~ lift (get_last_col paths) ;;
  let payoffs := map (fun x => Rmax (K - x) 0) last in
  ret (npfloat_scale (exp (- r * T)) (np_mean payoffs)).

End MonteCarlo.

(** ** [scipy.optimize.minimize_scalar] *)

Record OptimizeResult : Type := {
  x : R;
  success : bool
}.

(** [minimize_scalar(f, bounds=(a, b), method='bounded')]. The objective is
    only evaluated inside the bounds; an exception of the objective passes
    through to the caller, and with an objective that never raises the
    search ends with a result whose [x] lies within the bounds. *)
Class ScalarMinimizer : Type := {
  minimize_scalar : (R -> pyresult R) -> R -> R -> pyresult OptimizeResult;
  minimize_scalar_propagates :
    forall f a b e, a < b ->
      (forall y, a <= y <= b -> f y = Raise e) ->
      minimize_scalar f a b = Raise e;
  minimize_scalar_total :
    forall f a b, a < b ->
      (forall y, a <= y <= b -> returns (f y)) ->
      exists res, minimize_scalar f a b = Ok res /\ a <= x res <= b
}.

(** ** implied_volatility.py *)

Module ImpliedVolatility.
Section Solver.
Context {N01 : StdNormal} {OPT : ScalarMinimizer}.

(** The closure [objective] of [solve_call] *)
Definition objective_call (S K T r market_price : R) (sigma : R) : pyresult R :=
  p <- black_scholes_call S K T r sigma ;;
  Ok (Rabs (p - market_price)).

(** The closure [objective] of [solve_put] *)
Definition objective_put (S K T r market_price : R) (sigma : R) : pyresult R :=
  p <- black_scholes_put S K T r sigma ;;
  Ok (Rabs (p - market_price)).

(** [try: ... return result.x] / [except: return initial_guess] *)
Definition solve_call (S K T r market_price initial_guess : R) : pyresult R :=
  match minimize_scalar (objective_call S K T r market_price) 0.01 3.0 with
  | Ok result => Ok (x result)
  | Raise _ => Ok initial_guess
  end.

Definition solve_put (S K T r market_price initial_guess : R) : pyresult R :=
  match minimize_scalar (objective_put S K T r market_price) 0.01 3.0 with
  | Ok result => Ok (x result)
  | Raise _ => Ok initial_guess
  end.

(** The default of the parameter [initial_guess] *)
Definition default_initial_guess : R := 0.3.

(** Whether the minimization inside [solve_call] / [solve_put] raised, which
    is when the [except] branch runs. *)
Definition call_fell_back (S K T r market_price : R) : Prop :=
  raises (minimize_scalar (objective_call S K T r market_price) 0.01 3.0).

Definition put_fell_back (S K T r market_price : R) : Prop :=
  raises (minimize_scalar (objective_put S K T r market_price) 0.01 3.0).

End Solver.
End ImpliedVolatility.

(** ** heatmaps.py *)

(** [np.linspace(start, stop, num)]: [num] evenly spaced points, the last
    one set to [stop]. *)
Definition np_linspace (start stop : R) (num : nat) : list R :=
  let step := (stop - start) / INR (num - 1) in
  let y := map (fun i => INR i * step + start) (seq 0 num) in
  if (1 <? num)%nat then replace_nth y (num - 1) stop else y.

(** A two-dimensional array indexed [h[i, j]], kept as the list of its
    rows. *)
Definition grid : Type := list (list R).

(** [np.zeros((n, m))] for lengths [n] and [m] *)
Definition grid_zeros (n m : nat) : grid := repeat (repeat 0 m) n.

(** [h[i, j] = v] *)
Definition set_cell (h : grid) (i j : nat) (v : R) : pyresult grid :=
  match nth_error h i with
  | Some row =>
      if (j <? length row)%nat then Ok (replace_nth h i (replace_nth row j v))
      else Raise IndexError
  | None => Raise IndexError
  end.

(** [enumerate(l)] *)
Definition enumerate {A : Type} (l : list A) : list (nat * A) :=
  combine (seq 0 (length l)) l.

(** [for i, a in items: acc = body i a acc] *)
Fixpoint for_enum {A B : Type} (items : list (nat * A))
    (body : nat -> A -> B -> pyresult B) (acc : B) : pyresult B :=
  match items with
  | [] => Ok acc
  | (i, a) :: rest => acc' <- body i a acc ;; for_enum rest body acc'
  end.

Module SensitivityAnalysis.
Import String.
Local Open Scope string_scope.

Section Heatmaps.
Context {N01 : StdNormal}.

(** The signature the Greeks share *)
Definition greek_fn : Type := R -> R -> R -> R -> R -> pyresult R.

(** The dictionary [greek_func], in the order of the source *)
Definition greek_func : list ((string * string) * greek_fn) :=
  [ (("call", "delta"), OptionGreeks.delta_call);
    (("call", "gamma"), OptionGreeks.gamma);
    (("call", "vega"), OptionGreeks.vega);
    (("call", "theta"), OptionGreeks.theta_call);
    (("put", "delta"), OptionGreeks.delta_put);
    (("put", "gamma"), OptionGreeks.gamma);
    (("put", "vega"), OptionGreeks.vega);
    (("put", "theta"), OptionGreeks.theta_put) ].

Definition key_eqb (k1 k2 : string * string) : bool :=
  (String.eqb (fst k1) (fst k2) && String.eqb (snd k1) (snd k2))%bool.

(** [d.get(key, default)] *)
Definition dict_get {V : Type} (d : list ((string * string) * V))
    (key : string * string) (default : V) : V :=
  match find (fun kv => key_eqb (fst kv) key) d with
  | Some kv => snd kv
  | None => default
  end.

Definition generate_heatmap (S_base K T r sigma : R)
    (option_type greek : string) : pyresult (list R * list R * grid) :=
  let S_range := np_linspace (S_base * 0.7) (S_base * 1.3) 20 in
  let vol_range := np_linspace 0.05 0.8 20 in
  let heatmap := grid_zeros (List.length vol_range) (List.length S_range) in
  let func := dict_get greek_func (option_type, greek) OptionGreeks.delta_call in
  heatmap <-
    for_enum (enumerate vol_range)
      (fun i vol heatmap =>
         for_enum (enumerate S_range)
           (fun j S heatmap =>
              v <- func S K T r vol ;;
              set_cell heatmap i j v)
           heatmap)
      heatmap ;;
  Ok (S_range, vol_range, heatmap).

End Heatmaps.
End SensitivityAnalysis.

(** * Vocabulary of the properties *)

(** ** The formulas of the analytical pricer, as real functions *)

Definition d1 (S K T r sigma : R) : R :=
  (ln (S / K) + (r + 0.5 * sigma ^ 2) * T) / (sigma * sqrt T).

Definition d2 (S K T r sigma : R) : R :=
  d1 S K T r sigma - sigma * sqrt T.

(** Valid market and contract parameters: [S, K, T, sigma > 0]. *)
Definition valid (S K T sigma : R) : Prop :=
  0 < S /\ 0 < K /\ 0 < T /\ 0 < sigma.

(** The closed-form prices *)
Section ClosedForm.
Context {N01 : StdNormal}.

Definition call_value (S K T r sigma : R) : R :=
  S * norm_cdf (d1 S K T r sigma)
  - K * exp (- r * T) * norm_cdf (d2 S K T r sigma).

Definition put_value (S K T r sigma : R) : R :=
  K * exp (- r * T) * norm_cdf (- d2 S K T r sigma)
  - S * norm_cdf (- d1 S K T r sigma).

End ClosedForm.

(** The number a call returns, and [0] when it raises. *)
Definition value_of (c : pyresult R) : R :=
  match c with
  | Ok v => v
  | Raise _ => 0
  end.

(** ** Domains of the inputs *)

(** The parameters the specification calls invalid *)
Definition invalid_parameters (S K T sigma : R) : Prop :=
  S <= 0 \/ K <= 0 \/ T <= 0 \/ sigma <= 0.

(** Rounding to the nearest integer, in the words of the specification:
    [n] is an integer nearest to [y]. *)
Definition nearest_integer (y : R) (n : Z) : Prop :=
  forall m : Z, Rabs (y - IZR n) <= Rabs (y - IZR m).

(** Seeds that [np.random.seed] accepts *)
Definition valid_seed (seed : Z) : Prop := (0 <= seed < 2 ^ 32)%Z.

(** The inputs on which the expression for [d1] cannot be evaluated. *)
Definition rejected (S K T sigma : R) : Prop :=
  K = 0 \/ S / K <= 0 \/ T <= 0 \/ sigma = 0.

(** Inputs on which the closed-form price cannot be evaluated for any
    volatility of the search interval. *)
Definition unpriceable (S K T : R) : Prop := K = 0 \/ S / K <= 0 \/ T <= 0.

(** A path array without rows *)
Definition all_empty (paths : ndarray) : Prop := Forall (fun c => c = []) paths.

(** A path array whose columns all have [n] entries *)
Definition columns_sized (n : nat) (paths : ndarray) : Prop :=
  Forall (fun c => length c = n) paths.

(** A generator that returns as many numbers as it is asked for, as
    [np.random.standard_normal(n)] does. *)
Definition draws_sized {RNG : NumpyRandom} : Prop :=
  forall n g, length (fst (standard_normal n g)) = n.

(** ** What a caller of the solver can observe *)

Section Observability.
Context {N01 : StdNormal} {OPT : ScalarMinimizer}.
Import ImpliedVolatility.

(** A caller-side test on the returned value that tells a converged solve
    from a fallback. *)
Definition call_distinguishable : Prop :=
  exists flag : pyresult R -> bool,
    forall S K T r market_price initial_guess,
      flag (solve_call S K T r market_price initial_guess) = true <->
      ~ call_fell_back S K T r market_price.

Definition put_distinguishable : Prop :=
  exists flag : pyresult R -> bool,
    forall S K T r market_price initial_guess,
      flag (solve_put S K T r market_price initial_guess) = true <->
      ~ put_fell_back S K T r market_price.

End Observability.

(** * Properties *)

(** ** Evaluating the arithmetic primitives *)

Lemma half_inv : 0.5 = / 2.
Proof. lra. Qed.

Lemma truediv_ok (a b : R) : b <> 0 -> truediv a b = Ok (a / b).
Proof.
  intros Hb. unfold truediv. destruct (Req_dec_T b 0); [contradiction | reflexivity].
Qed.

Lemma truediv_zero (a : R) : truediv a 0 = Raise ZeroDivisionError.
Proof.
  unfold truediv. destruct (Req_dec_T 0 0) as [_ | Hn]; [reflexivity | now elim Hn].
Qed.

Lemma math_log_ok (y : R) : 0 < y -> math_log y = Ok (ln y).
Proof.
  intros Hy. unfold math_log. destruct (Rle_dec y 0); [lra | reflexivity].
Qed.

Lemma math_log_domain (y : R) : y <= 0 -> math_log y = Raise ValueError.
Proof.
  intros Hy. unfold math_log. destruct (Rle_dec y 0); [reflexivity | lra].
Qed.

Lemma math_sqrt_ok (y : R) : 0 <= y -> math_sqrt y = Ok (sqrt y).
Proof.
  intros Hy. unfold math_sqrt. destruct (Rlt_dec y 0); [lra | reflexivity].
Qed.

Lemma math_sqrt_domain (y : R) : y < 0 -> math_sqrt y = Raise ValueError.
Proof.
  intros Hy. unfold math_sqrt. destruct (Rlt_dec y 0); [reflexivity | lra].
Qed.

Lemma vol_sqrt_pos (T sigma : R) : 0 < T -> 0 < sigma -> 0 < sigma * sqrt T.
Proof.
  intros HT Hs. apply Rmult_lt_0_compat; [assumption | now apply sqrt_lt_R0].
Qed.

Lemma ratio_pos (S K : R) : 0 < S -> 0 < K -> 0 < S / K.
Proof. intros HS HK. now apply Rdiv_lt_0_compat. Qed.

Lemma d1_expr_valid (S K T r sigma : R) :
  valid S K T sigma -> d1_expr S K T r sigma = Ok (d1 S K T r sigma).
Proof.
  intros (HS & HK & HT & Hs). unfold d1_expr, d1.
  rewrite truediv_ok by lra. cbn [bind].
  rewrite math_log_ok by now apply ratio_pos. cbn [bind].
  rewrite math_sqrt_ok by lra. cbn [bind].
  apply truediv_ok. pose proof (vol_sqrt_pos T sigma HT Hs). lra.
Qed.

(** The expression of the rho functions is the pricer's [d2]. *)
Lemma d2_expr_valid (S K T r sigma : R) :
  valid S K T sigma -> d2_expr S K T r sigma = Ok (d2 S K T r sigma).
Proof.
  intros (HS & HK & HT & Hs). unfold d2_expr, d2, d1.
  rewrite truediv_ok by lra. cbn [bind].
  rewrite math_log_ok by now apply ratio_pos. cbn [bind].
  rewrite math_sqrt_ok by lra. cbn [bind].
  pose proof (vol_sqrt_pos T sigma HT Hs) as Hv.
  rewrite truediv_ok by lra. f_equal.
  assert (Hsq : sqrt T * sqrt T = T) by (apply sqrt_sqrt; lra).
  assert (Hq : 0 < sqrt T) by now apply sqrt_lt_R0.
  set (s := sqrt T) in *. clearbody s. subst T.
  rewrite half_inv. field. split; lra.
Qed.

Lemma within_tolerance (a b : R) : a = b -> Rabs (a - b) <= 1e-9.
Proof.
  intros ->. replace (b - b) with 0 by ring. rewrite Rabs_R0. lra.
Qed.

Section AnalyticalFacts.
Context {N01 : StdNormal}.

Lemma black_scholes_call_valid (S K T r sigma : R) :
  valid S K T sigma ->
  black_scholes_call S K T r sigma =
  Ok (S * norm_cdf (d1 S K T r sigma)
      - K * exp (- r * T) * norm_cdf (d2 S K T r sigma)).
Proof.
  intros Hv. unfold black_scholes_call. rewrite d1_expr_valid by assumption.
  destruct Hv as (_ & _ & HT & _). cbn [bind].
  rewrite math_sqrt_ok by lra. reflexivity.
Qed.

Lemma black_scholes_put_valid (S K T r sigma : R) :
  valid S K T sigma ->
  black_scholes_put S K T r sigma =
  Ok (K * exp (- r * T) * norm_cdf (- d2 S K T r sigma)
      - S * norm_cdf (- d1 S K T r sigma)).
Proof.
  intros Hv. unfold black_scholes_put. rewrite d1_expr_valid by assumption.
  destruct Hv as (_ & _ & HT & _). cbn [bind].
  rewrite math_sqrt_ok by lra. reflexivity.
Qed.

(** C5. Put-call parity: for valid inputs both pricers return, and
    [call - put = S - K * exp (- r * T)] exactly over the reals, hence within
    the absolute tolerance 1e-9. *)
Theorem put_call_parity (S K T r sigma : R) :
  valid S K T sigma ->
  exists c p,
    black_scholes_call S K T r sigma = Ok c /\
    black_scholes_put S K T r sigma = Ok p /\
    c - p = S - K * exp (- r * T) /\
    Rabs ((c - p) - (S - K * exp (- r * T))) <= 1e-9.
Proof.
  intros Hv.
  eexists. eexists.
  split; [now apply black_scholes_call_valid | ].
  split; [now apply black_scholes_put_valid | ].
  rewrite !norm_cdf_sym.
  match goal with |- ?e /\ _ => assert (He : e) by ring end.
  split; [exact He | ].
  now apply within_tolerance.
Qed.

End AnalyticalFacts.

(** ** The Greeks on valid inputs *)

Section GreeksFacts.
Context {N01 : StdNormal}.
Import OptionGreeks.

Lemma norm_pdf_pos (y : R) : 0 < norm_pdf y.
Proof.
  rewrite norm_pdf_gauss.
  apply Rmult_lt_0_compat; [apply norm_pdf_0 | apply exp_pos].
Qed.

Lemma delta_call_valid (S K T r sigma : R) :
  valid S K T sigma ->
  delta_call S K T r sigma = Ok (norm_cdf (d1 S K T r sigma)).
Proof.
  intros Hv. unfold delta_call. now rewrite d1_expr_valid.
Qed.

Lemma delta_put_valid (S K T r sigma : R) :
  valid S K T sigma ->
  delta_put S K T r sigma = Ok (norm_cdf (d1 S K T r sigma) - 1).
Proof.
  intros Hv. unfold delta_put. now rewrite d1_expr_valid.
Qed.

Lemma gamma_valid (S K T r sigma : R) :
  valid S K T sigma ->
  gamma S K T r sigma =
  Ok (norm_pdf (d1 S K T r sigma) / (S * sigma * sqrt T)).
Proof.
  intros Hv. unfold gamma. rewrite d1_expr_valid by assumption.
  destruct Hv as (HS & _ & HT & Hs). cbn [bind].
  rewrite math_sqrt_ok by lra. cbn [bind].
  apply truediv_ok.
  pose proof (vol_sqrt_pos T sigma HT Hs).
  assert (0 < S * (sigma * sqrt T)) by now apply Rmult_lt_0_compat.
  lra.
Qed.

Lemma vega_valid (S K T r sigma : R) :
  valid S K T sigma ->
  vega S K T r sigma = Ok (S * norm_pdf (d1 S K T r sigma) * sqrt T / 100).
Proof.
  intros Hv. unfold vega. rewrite d1_expr_valid by assumption.
  destruct Hv as (_ & _ & HT & _). cbn [bind].
  now rewrite math_sqrt_ok by lra.
Qed.

Lemma rho_call_valid (S K T r sigma : R) :
  valid S K T sigma ->
  rho_call S K T r sigma =
  Ok (K * T * exp (- r * T) * norm_cdf (d2 S K T r sigma) / 100).
Proof.
  intros Hv. unfold rho_call. now rewrite d2_expr_valid.
Qed.

Lemma rho_put_valid (S K T r sigma : R) :
  valid S K T sigma ->
  rho_put S K T r sigma =
  Ok (- K * T * exp (- r * T) * norm_cdf (- d2 S K T r sigma) / 100).
Proof.
  intros Hv. unfold rho_put. now rewrite d2_expr_valid.
Qed.


(** C8. For valid inputs the Greeks return and respect their sign
    conventions: [delta_call] lies in [[0, 1]], [delta_put] in [[-1, 0]],
    [gamma >= 0] and [vega >= 0]. *)
Theorem greeks_sign_conventions (S K T r sigma : R) :
  valid S K T sigma ->
  exists dc dp g v,
    delta_call S K T r sigma = Ok dc /\ 0 <= dc <= 1 /\
    delta_put S K T r sigma = Ok dp /\ -1 <= dp <= 0 /\
    gamma S K T r sigma = Ok g /\ 0 <= g /\
    vega S K T r sigma = Ok v /\ 0 <= v.
Proof.
  intros Hv.
  pose proof (norm_cdf_range (d1 S K T r sigma)) as Hr.
  pose proof (norm_pdf_pos (d1 S K T r sigma)) as Hp.
  destruct Hv as (HS & HK & HT & Hs).
  assert (Hv : valid S K T sigma) by (repeat split; assumption).
  pose proof (vol_sqrt_pos T sigma HT Hs) as Hvs.
  assert (Hq : 0 < sqrt T) by now apply sqrt_lt_R0.
  do 4 eexists.
  split; [now apply delta_call_valid | ]. split; [exact Hr | ].
  split; [now apply delta_put_valid | ]. split; [lra | ].
  split; [now apply gamma_valid | ].
  split.
  { apply Rlt_le, Rdiv_lt_0_compat; [exact Hp | ].
    rewrite Rmult_assoc. now apply Rmult_lt_0_compat. }
  split; [now apply vega_valid | ].
  apply Rlt_le, Rdiv_lt_0_compat; [ | lra].
  apply Rmult_lt_0_compat; [ | exact Hq]. now apply Rmult_lt_0_compat.
Qed.

End GreeksFacts.

(** ** Differentiation rules in pointwise form *)

Lemma dl_eq (f : R -> R) (y l l' : R) :
  derivable_pt_lim f y l -> l = l' -> derivable_pt_lim f y l'.
Proof. now intros H <-. Qed.

Lemma dl_const (a y : R) : derivable_pt_lim (fun _ => a) y 0.
Proof. exact (derivable_pt_lim_const a y). Qed.

Lemma dl_id (y : R) : derivable_pt_lim (fun z => z) y 1.
Proof. exact (derivable_pt_lim_id y). Qed.

Lemma dl_plus (f g : R -> R) (y l1 l2 : R) :
  derivable_pt_lim f y l1 -> derivable_pt_lim g y l2 ->
  derivable_pt_lim (fun z => f z + g z) y (l1 + l2).
Proof. exact (derivable_pt_lim_plus f g y l1 l2). Qed.

Lemma dl_minus (f g : R -> R) (y l1 l2 : R) :
  derivable_pt_lim f y l1 -> derivable_pt_lim g y l2 ->
  derivable_pt_lim (fun z => f z - g z) y (l1 - l2).
Proof. exact (derivable_pt_lim_minus f g y l1 l2). Qed.

Lemma dl_mult (f g : R -> R) (y l1 l2 : R) :
  derivable_pt_lim f y l1 -> derivable_pt_lim g y l2 ->
  derivable_pt_lim (fun z => f z * g z) y (l1 * g y + f y * l2).
Proof. exact (derivable_pt_lim_mult f g y l1 l2). Qed.

Lemma dl_scal (a : R) (f : R -> R) (y l : R) :
  derivable_pt_lim f y l -> derivable_pt_lim (fun z => a * f z) y (a * l).
Proof. exact (derivable_pt_lim_scal f a y l). Qed.

Lemma dl_div_const (f : R -> R) (a y l : R) :
  derivable_pt_lim f y l -> derivable_pt_lim (fun z => f z / a) y (l / a).
Proof. intros H. now apply derivable_pt_lim_div_scal. Qed.

Lemma dl_comp (f g : R -> R) (y l1 l2 : R) :
  derivable_pt_lim f y l1 -> derivable_pt_lim g (f y) l2 ->
  derivable_pt_lim (fun z => g (f z)) y (l2 * l1).
Proof. exact (derivable_pt_lim_comp f g y l1 l2). Qed.

Lemma dl_div (f g : R -> R) (y l1 l2 : R) :
  derivable_pt_lim f y l1 -> derivable_pt_lim g y l2 -> g y <> 0 ->
  derivable_pt_lim (fun z => f z / g z) y ((l1 * g y - l2 * f y) / Rsqr (g y)).
Proof. exact (derivable_pt_lim_div f g y l1 l2). Qed.

(** A function whose derivative is nonnegative on [[a, b]] does not
    decrease from [a] to [b]. *)
Lemma nonneg_derivative_incr (f f' : R -> R) (a b : R) :
  a <= b ->
  (forall c, a <= c <= b -> derivable_pt_lim f c (f' c)) ->
  (forall c, a <= c <= b -> 0 <= f' c) ->
  f a <= f b.
Proof.
  intros [Hab | ->] Hd Hpos; [ | lra].
  destruct (MVT_cor2 f f' a b Hab Hd) as (c & Hc & Hin).
  assert (0 <= f' c * (b - a)).
  { apply Rmult_le_pos; [apply Hpos | ]; lra. }
  lra.
Qed.

(** A function whose derivative is at most [1] on [[a, b]] grows by at most
    [b - a] from [a] to [b]. *)
Lemma derivative_le_1_growth (f f' : R -> R) (a b : R) :
  a <= b ->
  (forall c, a <= c <= b -> derivable_pt_lim f c (f' c)) ->
  (forall c, a <= c <= b -> f' c <= 1) ->
  f b - f a <= b - a.
Proof.
  intros [Hab | ->] Hd Hle; [ | lra].
  destruct (MVT_cor2 f f' a b Hab Hd) as (c & Hc & Hin).
  assert (f' c * (b - a) <= 1 * (b - a)).
  { apply Rmult_le_compat_r; [ | apply Hle]; lra. }
  lra.
Qed.

(** ** Sensitivities of the closed-form prices *)

Section PriceCalculus.
Context {N01 : StdNormal}.

Lemma put_value_parity (S K T r sigma : R) :
  put_value S K T r sigma = call_value S K T r sigma - S + K * exp (- r * T).
Proof.
  unfold put_value, call_value. rewrite !norm_cdf_sym. ring.
Qed.

(** The identity behind every Black-Scholes sensitivity:
    [S * phi d1 = K * exp (- r * T) * phi d2]. *)
Lemma pdf_d1_d2 (S K T r sigma : R) :
  valid S K T sigma ->
  S * norm_pdf (d1 S K T r sigma)
  = K * exp (- r * T) * norm_pdf (d2 S K T r sigma).
Proof.
  intros (HS & HK & HT & Hs).
  pose proof (vol_sqrt_pos T sigma HT Hs) as Hv.
  assert (Hsq : sqrt T * sqrt T = T) by (apply sqrt_sqrt; lra).
  rewrite (norm_pdf_gauss (d1 _ _ _ _ _)), (norm_pdf_gauss (d2 _ _ _ _ _)).
  assert (HSK : S = K * exp (ln (S / K))).
  { rewrite exp_ln by now apply ratio_pos. field. lra. }
  rewrite HSK at 1.
  transitivity (K * norm_pdf 0 *
    (exp (ln (S / K)) * exp (- (d1 S K T r sigma * d1 S K T r sigma) / 2)));
    [ring | ].
  transitivity (K * norm_pdf 0 *
    (exp (- r * T) * exp (- (d2 S K T r sigma * d2 S K T r sigma) / 2)));
    [ | ring].
  f_equal. rewrite <- !exp_plus. f_equal.
  unfold d2, d1. set (L := ln (S / K)).
  assert (Hq : 0 < sqrt T) by now apply sqrt_lt_R0.
  set (s := sqrt T) in *. clearbody s L. subst T.
  rewrite half_inv. field. split; lra.
Qed.

Lemma d1_deriv_S (S K T r sigma : R) :
  valid S K T sigma ->
  derivable_pt_lim (fun y => d1 y K T r sigma) S (/ (S * (sigma * sqrt T))).
Proof.
  intros (HS & HK & HT & Hs).
  pose proof (vol_sqrt_pos T sigma HT Hs) as Hv.
  assert (Hq : 0 < sqrt T) by now apply sqrt_lt_R0.
  unfold d1.
  eapply dl_eq.
  - apply dl_div_const. apply dl_plus; [ | apply dl_const].
    apply (dl_comp (fun z => z / K) ln).
    + apply dl_div_const. apply dl_id.
    + apply derivable_pt_lim_ln. now apply ratio_pos.
  - field. repeat split; lra.
Qed.

Lemma d2_deriv_S (S K T r sigma : R) :
  valid S K T sigma ->
  derivable_pt_lim (fun y => d2 y K T r sigma) S (/ (S * (sigma * sqrt T))).
Proof.
  intros Hv. unfold d2. eapply dl_eq.
  - apply dl_minus; [now apply d1_deriv_S | apply dl_const].
  - ring.
Qed.

(** Delta: the derivative of the call value in the spot price is [Phi d1]. *)
Lemma call_value_deriv_S (S K T r sigma : R) :
  valid S K T sigma ->
  derivable_pt_lim (fun y => call_value y K T r sigma) S
    (norm_cdf (d1 S K T r sigma)).
Proof.
  intros Hv. pose proof (pdf_d1_d2 S K T r sigma Hv) as Hid.
  unfold call_value. eapply dl_eq.
  - apply dl_minus.
    + apply dl_mult; [apply dl_id | ].
      apply (dl_comp (fun y => d1 y K T r sigma) norm_cdf);
        [now apply d1_deriv_S | apply norm_cdf_deriv].
    + apply dl_scal.
      apply (dl_comp (fun y => d2 y K T r sigma) norm_cdf);
        [now apply d2_deriv_S | apply norm_cdf_deriv].
  - destruct Hv as (HS & HK & HT & Hs).
    pose proof (vol_sqrt_pos T sigma HT Hs) as Hvs.
    set (a := sigma * sqrt T) in *.
    set (p1 := norm_pdf (d1 S K T r sigma)) in *.
    set (p2 := norm_pdf (d2 S K T r sigma)) in *.
    set (E := exp (- r * T)) in *.
    transitivity (norm_cdf (d1 S K T r sigma) + (S * p1 - K * E * p2) / (S * a)).
    + field. split; lra.
    + rewrite Hid. unfold Rdiv. ring.
Qed.

Lemma dl_sqr (y : R) : derivable_pt_lim (fun z => z ^ 2) y (2 * y).
Proof.
  apply (derivable_pt_lim_ext (fun z => z * z)); [intros z; cbv beta; ring | ].
  eapply dl_eq; [apply (dl_mult (fun z => z) (fun z => z)); apply dl_id | lra].
Qed.

Lemma d1_deriv_sigma (S K T r sigma : R) :
  valid S K T sigma ->
  exists l, derivable_pt_lim (fun y => d1 S K T r y) sigma l.
Proof.
  intros (HS & HK & HT & Hs).
  pose proof (vol_sqrt_pos T sigma HT Hs) as Hv.
  unfold d1. eexists.
  apply (dl_div (fun z => ln (S / K) + (r + 0.5 * z ^ 2) * T)
                (fun z => z * sqrt T)).
  - apply dl_plus; [apply dl_const | ].
    apply (dl_mult (fun z => r + 0.5 * z ^ 2) (fun _ => T)); [ | apply dl_const].
    apply dl_plus; [apply dl_const | ]. apply dl_scal. apply dl_sqr.
  - apply (dl_mult (fun z => z) (fun _ => sqrt T)); [apply dl_id | apply dl_const].
  - lra.
Qed.

(** Vega: the derivative of the call value in the volatility is
    [S * phi d1 * sqrt T]. *)
Lemma call_value_deriv_sigma (S K T r sigma : R) :
  valid S K T sigma ->
  derivable_pt_lim (fun y => call_value S K T r y) sigma
    (S * norm_pdf (d1 S K T r sigma) * sqrt T).
Proof.
  intros Hv. pose proof (pdf_d1_d2 S K T r sigma Hv) as Hid.
  destruct (d1_deriv_sigma S K T r sigma Hv) as (l & Hl).
  assert (Hl2 : derivable_pt_lim (fun y => d2 S K T r y) sigma (l - sqrt T)).
  { unfold d2. apply dl_minus; [exact Hl | ].
    eapply dl_eq.
    - apply (dl_mult (fun z => z) (fun _ => sqrt T)); [apply dl_id | apply dl_const].
    - ring. }
  unfold call_value. eapply dl_eq.
  - apply dl_minus.
    + apply dl_scal.
      apply (dl_comp (fun y => d1 S K T r y) norm_cdf);
        [exact Hl | apply norm_cdf_deriv].
    + apply dl_scal.
      apply (dl_comp (fun y => d2 S K T r y) norm_cdf);
        [exact Hl2 | apply norm_cdf_deriv].
  - set (p1 := norm_pdf (d1 S K T r sigma)) in *.
    set (p2 := norm_pdf (d2 S K T r sigma)) in *.
    set (E := exp (- r * T)) in *.
    transitivity ((S * p1 - K * E * p2) * l + K * E * p2 * sqrt T); [ring | ].
    rewrite Hid. ring.
Qed.

Lemma valid_spot (S K T sigma c : R) :
  valid S K T sigma -> S <= c -> valid c K T sigma.
Proof. intros (HS & HK & HT & Hs) Hc. repeat split; lra. Qed.

Lemma valid_vol (S K T sigma c : R) :
  valid S K T sigma -> sigma <= c -> valid S K T c.
Proof. intros (HS & HK & HT & Hs) Hc. repeat split; lra. Qed.

Lemma call_value_incr_S (S1 S2 K T r sigma : R) :
  valid S1 K T sigma -> S1 <= S2 ->
  call_value S1 K T r sigma <= call_value S2 K T r sigma.
Proof.
  intros Hv Hle.
  apply (nonneg_derivative_incr (fun y => call_value y K T r sigma)
           (fun y => norm_cdf (d1 y K T r sigma))); [exact Hle | | ].
  - intros c [Hc _]. apply call_value_deriv_S. now apply (valid_spot S1).
  - intros c _. apply norm_cdf_range.
Qed.

Lemma call_value_growth_S (S1 S2 K T r sigma : R) :
  valid S1 K T sigma -> S1 <= S2 ->
  call_value S2 K T r sigma - call_value S1 K T r sigma <= S2 - S1.
Proof.
  intros Hv Hle.
  apply (derivative_le_1_growth (fun y => call_value y K T r sigma)
           (fun y => norm_cdf (d1 y K T r sigma))); [exact Hle | | ].
  - intros c [Hc _]. apply call_value_deriv_S. now apply (valid_spot S1).
  - intros c _. apply norm_cdf_range.
Qed.

Lemma call_value_incr_sigma (S K T r sigma1 sigma2 : R) :
  valid S K T sigma1 -> sigma1 <= sigma2 ->
  call_value S K T r sigma1 <= call_value S K T r sigma2.
Proof.
  intros Hv Hle.
  apply (nonneg_derivative_incr (fun y => call_value S K T r y)
           (fun y => S * norm_pdf (d1 S K T r y) * sqrt T)); [exact Hle | | ].
  - intros c [Hc _]. apply call_value_deriv_sigma. now apply (valid_vol S K T sigma1).
  - intros c _. destruct Hv as (HS & _ & HT & _).
    pose proof (norm_pdf_pos (d1 S K T r c)).
    assert (0 < sqrt T) by now apply sqrt_lt_R0.
    apply Rlt_le. apply Rmult_lt_0_compat; [ | assumption].
    now apply Rmult_lt_0_compat.
Qed.

(** C6. For valid inputs the call price does not decrease when the spot
    price or the volatility grows; the put price does not increase when the
    spot price grows and does not decrease when the volatility grows. *)
Theorem price_monotonicity (S K T r sigma S' sigma' : R) :
  valid S K T sigma -> S <= S' -> sigma <= sigma' ->
  exists c cS cv p pS pv,
    black_scholes_call S K T r sigma = Ok c /\
    black_scholes_call S' K T r sigma = Ok cS /\
    black_scholes_call S K T r sigma' = Ok cv /\
    black_scholes_put S K T r sigma = Ok p /\
    black_scholes_put S' K T r sigma = Ok pS /\
    black_scholes_put S K T r sigma' = Ok pv /\
    c <= cS /\ c <= cv /\ pS <= p /\ p <= pv.
Proof.
  intros Hv HS Hs.
  assert (HvS : valid S' K T sigma) by now apply (valid_spot S).
  assert (Hvs : valid S K T sigma') by now apply (valid_vol S K T sigma).
  exists (call_value S K T r sigma), (call_value S' K T r sigma),
    (call_value S K T r sigma'), (put_value S K T r sigma),
    (put_value S' K T r sigma), (put_value S K T r sigma').
  repeat (split; [now (apply black_scholes_call_valid
                       || apply black_scholes_put_valid) | ]).
  pose proof (call_value_incr_S S S' K T r sigma Hv HS).
  pose proof (call_value_growth_S S S' K T r sigma Hv HS).
  pose proof (call_value_incr_sigma S K T r sigma sigma' Hv Hs).
  rewrite !put_value_parity. repeat split; lra.
Qed.

End PriceCalculus.

(** ** The simulation pricer *)

Lemma int_of_float_bounds (y : R) :
  0 <= y -> IZR (int_of_float y) <= y < IZR (int_of_float y) + 1.
Proof.
  intros Hy. unfold int_of_float. destruct (Rle_dec 0 y); [ | lra].
  apply Zfloor_bound.
Qed.

Lemma int_of_float_small (y : R) : 0 <= y < 1 -> int_of_float y = 0%Z.
Proof.
  intros Hy. unfold int_of_float. destruct (Rle_dec 0 y); [ | lra].
  apply Zfloor_eq. simpl. lra.
Qed.

Lemma int_of_float_nonneg (y : R) : 0 <= y -> (0 <= int_of_float y)%Z.
Proof.
  intros Hy. unfold int_of_float. destruct (Rle_dec 0 y); [ | lra].
  apply Zfloor_lub. simpl. lra.
Qed.

(** Below zero [int] rounds up, again toward zero. *)
Lemma int_of_float_negative (y : R) :
  y < 0 -> IZR (int_of_float y) - 1 < y <= IZR (int_of_float y).
Proof.
  intros Hy. unfold int_of_float. destruct (Rle_dec 0 y); [lra | ].
  apply Zceil_bound.
Qed.

(** The path loop has something to iterate over only for a positive step
    size, so the square root of [dt] that its body takes is a real one. *)
Lemma loop_step_positive (T : R) : (1 <= mc_steps T)%Z -> 0 < mc_dt T.
Proof.
  unfold mc_steps, mc_dt. intros Hsteps.
  destruct (Rle_lt_dec 0 (T * 252)) as [Hpos | Hneg].
  - pose proof (int_of_float_bounds (T * 252) Hpos) as [Hlo _].
    apply IZR_le in Hsteps. lra.
  - pose proof (int_of_float_negative (T * 252) Hneg) as [Hlo _].
    apply IZR_le in Hsteps. lra.
Qed.

Lemma replace_nth_length {A : Type} (l : list A) (t : nat) (v : A) :
  length (replace_nth l t v) = length l.
Proof.
  revert t. induction l as [ | c l IH]; intros [ | t]; simpl; auto.
Qed.

Lemma sum_repeat (v : R) (n : nat) :
  fold_right Rplus 0 (repeat v n) = INR n * v.
Proof.
  induction n as [ | n IH]; [simpl; ring | ].
  rewrite S_INR. simpl repeat. simpl fold_right. rewrite IH. ring.
Qed.

(** The mean of a nonempty constant array is its entry. *)
Lemma np_mean_repeat (v : R) (n : nat) :
  (0 < n)%nat -> np_mean (repeat v n) = Fin v.
Proof.
  intros Hn. destruct n as [ | n]; [lia | ].
  change (repeat v (S n)) with (v :: repeat v n). unfold np_mean.
  change (v :: repeat v n) with (repeat v (S n)).
  rewrite sum_repeat, repeat_length. f_equal. field.
  apply not_0_INR. lia.
Qed.

Section MonteCarloFacts.
Context {RNG : NumpyRandom}.

Lemma np_random_seed_ok (seed : Z) (g : rng_state) :
  valid_seed seed -> np_random_seed seed g = (Ok tt, seed_state seed).
Proof.
  intros [H0 H1]. unfold np_random_seed.
  destruct (Z.leb_spec 0 seed); [ | lia].
  destruct (Z.ltb_spec seed (2 ^ 32)); [reflexivity | lia].
Qed.

Lemma np_random_seed_bad (seed : Z) (g : rng_state) :
  ~ valid_seed seed -> np_random_seed seed g = (Raise ValueError, g).
Proof.
  intros Hn. unfold np_random_seed.
  destruct (Z.leb_spec 0 seed); [ | reflexivity].
  destruct (Z.ltb_spec seed (2 ^ 32)); [ | reflexivity].
  elim Hn. split; assumption.
Qed.

Lemma gbm_step_ok (r sigma dt : R) (N : Z) (t : nat) (paths : ndarray)
    (g : rng_state) :
  (0 <= N)%Z -> (1 <= t < length paths)%nat ->
  exists paths' g',
    gbm_step r sigma dt N t paths g = (Ok paths', g') /\
    length paths' = length paths.
Proof.
  intros HN Ht. unfold gbm_step, bindM, np_random_standard_normal, lift.
  destruct (Z.ltb_spec N 0); [lia | ].
  destruct (standard_normal (Z.to_nat N) g) as [z g'].
  unfold get_col. destruct (nth_error paths (t - 1)) as [prev | ] eqn:Hprev.
  - unfold set_col. destruct (Nat.ltb_spec t (length paths)); [ | lia].
    eexists. eexists. split; [reflexivity | apply replace_nth_length].
  - apply nth_error_None in Hprev. lia.
Qed.

Lemma for_each_gbm_ok (r sigma dt : R) (N : Z) (ts : list nat) :
  (0 <= N)%Z ->
  forall (paths : ndarray) (g : rng_state),
    (forall t, In t ts -> (1 <= t < length paths)%nat) ->
    exists paths' g',
      for_each ts (gbm_step r sigma dt N) paths g = (Ok paths', g') /\
      length paths' = length paths.
Proof.
  intros HN. induction ts as [ | t ts IH]; intros paths g Hts.
  - exists paths, g. split; reflexivity.
  - destruct (gbm_step_ok r sigma dt N t paths g HN) as (p1 & g1 & Hstep & Hlen).
    { apply Hts. now left. }
    destruct (IH p1 g1) as (p2 & g2 & Hrest & Hlen2).
    { intros t' Ht'. rewrite Hlen. apply Hts. now right. }
    exists p2, g2. split; [ | congruence].
    simpl. unfold bindM. rewrite Hstep. exact Hrest.
Qed.

Lemma range_1_bounds (steps : Z) (t : nat) :
  In t (range_1 steps) -> (1 <= t < Z.to_nat steps + 1)%nat.
Proof.
  unfold range_1. rewrite in_seq. lia.
Qed.

(** With a seed that numpy accepts, [N >= 0] and [T >= 0] the simulation
    runs to the end of the path loop, and the array it leaves has
    [steps + 1] columns. *)
Lemma simulate_paths_ok (S T r sigma : R) (N seed : Z) (g : rng_state) :
  valid_seed seed -> (0 <= N)%Z -> 0 <= T ->
  exists paths g',
    simulate_paths S T r sigma N seed g = (Ok paths, g') /\
    length paths = (Z.to_nat (mc_steps T) + 1)%nat.
Proof.
  intros Hseed HN HT.
  assert (Hsteps : (0 <= mc_steps T)%Z).
  { apply int_of_float_nonneg. lra. }
  unfold simulate_paths, bindM. rewrite np_random_seed_ok by assumption.
  unfold lift, np_zeros.
  destruct (Z.ltb_spec N 0); [lia | ].
  destruct (Z.ltb_spec (mc_steps T + 1) 0); [lia | ]. cbn [orb].
  replace (Z.to_nat (mc_steps T + 1)) with (Datatypes.S (Z.to_nat (mc_steps T))) by lia.
  cbn [repeat fill_col get_col nth_error bind set_col length Nat.ltb Nat.leb
       replace_nth].
  destruct (for_each_gbm_ok r sigma (mc_dt T) N (range_1 (mc_steps T)) HN
              (map (fun _ => S) (repeat 0 (Z.to_nat N))
                 :: repeat (repeat 0 (Z.to_nat N)) (Z.to_nat (mc_steps T)))
              (seed_state seed)) as (p & g' & Hrun & Hlen).
  { intros t Ht. apply range_1_bounds in Ht. simpl. rewrite repeat_length. lia. }
  exists p, g'. split; [exact Hrun | ].
  rewrite Hlen. simpl. rewrite repeat_length. lia.
Qed.

(** C2 (amended). For every [T > 0] the simulation works with
    [steps = int(T * 252)], the product truncated toward zero and not rounded
    to the nearest integer: [steps <= T * 252 < steps + 1]; with a seed that
    numpy accepts and [N >= 0] the path array it fills has [steps + 1]
    columns. *)
Theorem steps_truncate (S T r sigma : R) (N seed : Z) (g : rng_state) :
  0 < T -> (0 <= N)%Z -> valid_seed seed ->
  IZR (mc_steps T) <= T * 252 < IZR (mc_steps T) + 1 /\
  exists paths g',
    simulate_paths S T r sigma N seed g = (Ok paths, g') /\
    length paths = (Z.to_nat (mc_steps T) + 1)%nat.
Proof.
  intros HT HN Hseed. split.
  - apply int_of_float_bounds. lra.
  - apply simulate_paths_ok; [assumption | assumption | lra].
Qed.

(** Seeding discards the incoming generator state: what a simulation
    returns does not depend on the state it is started in. *)
Lemma simulate_paths_seeded (S T r sigma : R) (N seed : Z) (g1 g2 : rng_state) :
  valid_seed seed ->
  simulate_paths S T r sigma N seed g1 = simulate_paths S T r sigma N seed g2.
Proof.
  intros Hseed. unfold simulate_paths, bindM.
  now rewrite !np_random_seed_ok by assumption.
Qed.

Lemma simulate_paths_bad_seed (S T r sigma : R) (N seed : Z) (g : rng_state) :
  ~ valid_seed seed ->
  simulate_paths S T r sigma N seed g = (Raise ValueError, g).
Proof.
  intros Hseed. unfold simulate_paths, bindM.
  now rewrite np_random_seed_bad by assumption.
Qed.

Lemma valid_seed_dec (seed : Z) : {valid_seed seed} + {~ valid_seed seed}.
Proof.
  unfold valid_seed.
  destruct (Z_le_dec 0 seed); [ | right; lia].
  destruct (Z_lt_dec seed (2 ^ 32)); [left | right]; lia.
Qed.

(** C4. Two simulation-pricer calls, call or put, with the same inputs, the
    same path count and the same seed return the same price, whatever state
    the process-wide generator is in when each call starts. *)
Theorem monte_carlo_reproducible (S K T r sigma : R) (N seed : Z)
    (g1 g2 : rng_state) :
  fst (monte_carlo_call S K T r sigma N seed g1)
    = fst (monte_carlo_call S K T r sigma N seed g2) /\
  fst (monte_carlo_put S K T r sigma N seed g1)
    = fst (monte_carlo_put S K T r sigma N seed g2).
Proof.
  unfold monte_carlo_call, monte_carlo_put, bindM.
  destruct (valid_seed_dec seed) as [Hs | Hs].
  - rewrite (simulate_paths_seeded S T r sigma N seed g1 g2 Hs). split; reflexivity.
  - rewrite !simulate_paths_bad_seed by assumption. split; reflexivity.
Qed.

(** With no step to simulate the array is its first column, filled with
    [S], and the generator is left in its freshly seeded state. *)
Lemma simulate_paths_no_step (S T r sigma : R) (N seed : Z) (g : rng_state) :
  0 <= T < 1 / 252 -> (0 <= N)%Z -> valid_seed seed ->
  mc_steps T = 0%Z /\
  simulate_paths S T r sigma N seed g
    = (Ok [repeat S (Z.to_nat N)], seed_state seed).
Proof.
  intros HT HN Hseed.
  assert (Hsteps : mc_steps T = 0%Z).
  { apply int_of_float_small. lra. }
  split; [exact Hsteps | ].
  unfold simulate_paths, bindM. rewrite np_random_seed_ok by assumption.
  rewrite Hsteps. unfold lift, np_zeros.
  destruct (Z.ltb_spec N 0); [lia | ]. simpl.
  unfold ret. do 2 f_equal. f_equal.
  induction (Z.to_nat N) as [ | n IH]; simpl; congruence.
Qed.


End MonteCarloFacts.

(** ** Inputs outside the domain *)

Lemma not_rejected (S K T sigma : R) :
  ~ rejected S K T sigma -> K <> 0 /\ 0 < S / K /\ 0 < T /\ sigma <> 0.
Proof.
  unfold rejected. intros Hn. repeat split.
  - intros H. apply Hn. now left.
  - destruct (Rlt_le_dec 0 (S / K)); [assumption | ]. elim Hn. right. now left.
  - destruct (Rlt_le_dec 0 T); [assumption | ]. elim Hn. right. right. now left.
  - intros H. apply Hn. right. right. now right.
Qed.

(** Runs one of the two guarded quotients through its five cases. *)
Ltac expr_cases :=
  repeat split;
  [ intros ->; now rewrite truediv_zero
  | intros HK Hq; rewrite truediv_ok by assumption; cbn [bind];
    now rewrite math_log_domain
  | intros HK Hq HT; rewrite truediv_ok by assumption; cbn [bind];
    rewrite math_log_ok by assumption; cbn [bind];
    now rewrite math_sqrt_domain
  | intros HK Hq HT Hz; rewrite truediv_ok by assumption; cbn [bind];
    rewrite math_log_ok by assumption; cbn [bind];
    rewrite math_sqrt_ok by assumption; cbn [bind];
    rewrite Hz; apply truediv_zero
  | intros HK Hq HT Hz; rewrite truediv_ok by assumption; cbn [bind];
    rewrite math_log_ok by assumption; cbn [bind];
    rewrite math_sqrt_ok by assumption; cbn [bind];
    now apply truediv_ok ].

(** How the expression for [d1] ends on every input: Python's own arithmetic
    errors are the only ones there are. *)
Lemma d1_expr_cases (S K T r sigma : R) :
  (K = 0 -> d1_expr S K T r sigma = Raise ZeroDivisionError) /\
  (K <> 0 -> S / K <= 0 -> d1_expr S K T r sigma = Raise ValueError) /\
  (K <> 0 -> 0 < S / K -> T < 0 -> d1_expr S K T r sigma = Raise ValueError) /\
  (K <> 0 -> 0 < S / K -> 0 <= T -> sigma * sqrt T = 0 ->
     d1_expr S K T r sigma = Raise ZeroDivisionError) /\
  (K <> 0 -> 0 < S / K -> 0 <= T -> sigma * sqrt T <> 0 ->
     d1_expr S K T r sigma = Ok (d1 S K T r sigma)).
Proof. unfold d1_expr, d1. expr_cases. Qed.

(** The same for the expression of the rho functions. *)
Lemma d2_expr_cases (S K T r sigma : R) :
  (K = 0 -> d2_expr S K T r sigma = Raise ZeroDivisionError) /\
  (K <> 0 -> S / K <= 0 -> d2_expr S K T r sigma = Raise ValueError) /\
  (K <> 0 -> 0 < S / K -> T < 0 -> d2_expr S K T r sigma = Raise ValueError) /\
  (K <> 0 -> 0 < S / K -> 0 <= T -> sigma * sqrt T = 0 ->
     d2_expr S K T r sigma = Raise ZeroDivisionError) /\
  (K <> 0 -> 0 < S / K -> 0 <= T -> sigma * sqrt T <> 0 ->
     d2_expr S K T r sigma
     = Ok ((ln (S / K) + (r - 0.5 * sigma ^ 2) * T) / (sigma * sqrt T))).
Proof. unfold d2_expr. expr_cases. Qed.

Lemma vol_sqrt_nonzero (T sigma : R) : 0 < T -> sigma <> 0 -> sigma * sqrt T <> 0.
Proof.
  intros HT Hs. apply Rmult_integral_contrapositive_currified; [assumption | ].
  apply Rgt_not_eq. now apply sqrt_lt_R0.
Qed.

Lemma d1_expr_rejected (S K T r sigma : R) :
  rejected S K T sigma -> raises (d1_expr S K T r sigma).
Proof.
  destruct (d1_expr_cases S K T r sigma) as (H1 & H2 & H3 & H4 & _).
  intros Hrej. unfold raises.
  destruct (Req_dec_T K 0) as [HK | HK]; [rewrite H1 by assumption; eauto | ].
  destruct (Rlt_le_dec 0 (S / K)) as [Hq | Hq];
    [ | rewrite H2 by assumption; eauto].
  destruct (Rlt_le_dec T 0) as [HT | HT]; [rewrite H3 by assumption; eauto | ].
  rewrite H4; [eauto | assumption | assumption | assumption | ].
  destruct Hrej as [HK' | [Hq' | [HT' | Hs]]]; try lra.
  - replace T with 0 by lra. rewrite sqrt_0. ring.
  - rewrite Hs. ring.
Qed.

Lemma d1_expr_accepted (S K T r sigma : R) :
  ~ rejected S K T sigma -> d1_expr S K T r sigma = Ok (d1 S K T r sigma).
Proof.
  intros Hn. apply not_rejected in Hn. destruct Hn as (HK & Hq & HT & Hs).
  destruct (d1_expr_cases S K T r sigma) as (_ & _ & _ & _ & H5).
  apply H5; [assumption | assumption | lra | now apply vol_sqrt_nonzero].
Qed.

(** The quotient of the rho functions is the pricer's [d2] whenever it can
    be evaluated, for volatilities of either sign. *)
Lemma d2_quotient (S K T r sigma : R) :
  0 < T -> sigma <> 0 ->
  (ln (S / K) + (r - 0.5 * sigma ^ 2) * T) / (sigma * sqrt T)
  = d2 S K T r sigma.
Proof.
  intros HT Hs. unfold d2, d1.
  assert (Hsq : sqrt T * sqrt T = T) by (apply sqrt_sqrt; lra).
  assert (Hq : 0 < sqrt T) by now apply sqrt_lt_R0.
  set (s := sqrt T) in *. clearbody s. subst T.
  rewrite half_inv. field. split; [lra | assumption].
Qed.

Lemma d2_expr_rejected (S K T r sigma : R) :
  rejected S K T sigma -> raises (d2_expr S K T r sigma).
Proof.
  destruct (d2_expr_cases S K T r sigma) as (H1 & H2 & H3 & H4 & _).
  intros Hrej. unfold raises.
  destruct (Req_dec_T K 0) as [HK | HK]; [rewrite H1 by assumption; eauto | ].
  destruct (Rlt_le_dec 0 (S / K)) as [Hq | Hq];
    [ | rewrite H2 by assumption; eauto].
  destruct (Rlt_le_dec T 0) as [HT | HT]; [rewrite H3 by assumption; eauto | ].
  rewrite H4; [eauto | assumption | assumption | assumption | ].
  destruct Hrej as [HK' | [Hq' | [HT' | Hs]]]; try lra.
  - replace T with 0 by lra. rewrite sqrt_0. ring.
  - rewrite Hs. ring.
Qed.

Lemma d2_expr_accepted (S K T r sigma : R) :
  ~ rejected S K T sigma -> d2_expr S K T r sigma = Ok (d2 S K T r sigma).
Proof.
  intros Hn. apply not_rejected in Hn. destruct Hn as (HK & Hq & HT & Hs).
  destruct (d2_expr_cases S K T r sigma) as (_ & _ & _ & _ & H5).
  rewrite H5; [ | assumption | assumption | lra | now apply vol_sqrt_nonzero].
  now rewrite d2_quotient.
Qed.

Lemma bind_raises {A B : Type} (c : pyresult A) (k : A -> pyresult B) :
  raises c -> raises (bind c k).
Proof. intros (e & ->). exists e. reflexivity. Qed.

Section Unvalidated.
Context {N01 : StdNormal}.
Import OptionGreeks.

Lemma analytical_rejected (S K T r sigma : R) :
  rejected S K T sigma ->
  raises (black_scholes_call S K T r sigma) /\
  raises (black_scholes_put S K T r sigma) /\
  raises (delta_call S K T r sigma) /\
  raises (delta_put S K T r sigma) /\
  raises (gamma S K T r sigma) /\
  raises (vega S K T r sigma) /\
  raises (theta_call S K T r sigma) /\
  raises (theta_put S K T r sigma) /\
  raises (rho_call S K T r sigma) /\
  raises (rho_put S K T r sigma).
Proof.
  intros Hrej. pose proof (d1_expr_rejected S K T r sigma Hrej) as Hd.
  pose proof (d2_expr_rejected S K T r sigma Hrej) as Hd2.
  repeat split; now apply bind_raises.
Qed.

Lemma analytical_accepted (S K T r sigma : R) :
  ~ rejected S K T sigma ->
  black_scholes_call S K T r sigma = Ok (call_value S K T r sigma) /\
  black_scholes_put S K T r sigma = Ok (put_value S K T r sigma) /\
  delta_call S K T r sigma = Ok (norm_cdf (d1 S K T r sigma)) /\
  delta_put S K T r sigma = Ok (norm_cdf (d1 S K T r sigma) - 1) /\
  gamma S K T r sigma = Ok (norm_pdf (d1 S K T r sigma) / (S * sigma * sqrt T)) /\
  vega S K T r sigma = Ok (S * norm_pdf (d1 S K T r sigma) * sqrt T / 100) /\
  theta_call S K T r sigma
    = Ok ((- S * norm_pdf (d1 S K T r sigma) * sigma / (2 * sqrt T)
           - r * K * exp (- r * T) * norm_cdf (d2 S K T r sigma)) / 365) /\
  theta_put S K T r sigma
    = Ok ((- S * norm_pdf (d1 S K T r sigma) * sigma / (2 * sqrt T)
           + r * K * exp (- r * T) * norm_cdf (- d2 S K T r sigma)) / 365) /\
  rho_call S K T r sigma
    = Ok (K * T * exp (- r * T) * norm_cdf (d2 S K T r sigma) / 100) /\
  rho_put S K T r sigma
    = Ok (- K * T * exp (- r * T) * norm_cdf (- d2 S K T r sigma) / 100).
Proof.
  intros Hn. pose proof (d1_expr_accepted S K T r sigma Hn) as Hd.
  pose proof (d2_expr_accepted S K T r sigma Hn) as Hd2.
  apply not_rejected in Hn. destruct Hn as (HK & Hq & HT & Hs).
  assert (Hsq : 0 < sqrt T) by now apply sqrt_lt_R0.
  unfold black_scholes_call, black_scholes_put, delta_call, delta_put, gamma,
    vega, theta_call, theta_put, rho_call, rho_put.
  rewrite Hd, Hd2. cbn [bind]. rewrite math_sqrt_ok by lra. cbn [bind].
  rewrite (truediv_ok _ (2 * sqrt T)) by lra. cbn [bind].
  fold (d2 S K T r sigma).
  repeat split.
  apply truediv_ok.
  assert (HS : S <> 0).
  { intros ->. unfold Rdiv in Hq. rewrite Rmult_0_l in Hq. lra. }
  pose proof (vol_sqrt_nonzero T sigma HT Hs).
  rewrite Rmult_assoc. now apply Rmult_integral_contrapositive_currified.
Qed.

End Unvalidated.

(** *** The simulation pricer with a path count below one *)

Lemma replace_nth_Forall {A : Type} (P : A -> Prop) (l : list A) (t : nat) (v : A) :
  Forall P l -> P v -> Forall P (replace_nth l t v).
Proof.
  intros Hl Hv. revert t. induction Hl as [ | c l Hc Hl IH]; intros [ | t]; simpl;
    auto.
Qed.

Section NoPaths.
Context {RNG : NumpyRandom}.

Lemma gbm_step_empty (r sigma dt : R) (N : Z) (t : nat) (paths paths' : ndarray)
    (g g' : rng_state) :
  all_empty paths ->
  gbm_step r sigma dt N t paths g = (Ok paths', g') ->
  all_empty paths'.
Proof.
  intros Hall. unfold gbm_step, bindM, np_random_standard_normal, lift.
  destruct (Z.ltb N 0); [discriminate | ].
  destruct (standard_normal (Z.to_nat N) g) as [z g1].
  unfold get_col. destruct (nth_error paths (t - 1)) as [prev | ] eqn:Hprev;
    [ | discriminate].
  assert (Hp : prev = []).
  { apply nth_error_In in Hprev. unfold all_empty in Hall.
    rewrite Forall_forall in Hall. now apply Hall. }
  subst prev. unfold set_col. destruct (t <? length paths)%nat; [ | discriminate].
  intros Heq. inversion Heq. subst. now apply replace_nth_Forall.
Qed.

Lemma for_each_gbm_empty (r sigma dt : R) (N : Z) (ts : list nat) :
  forall (paths paths' : ndarray) (g g' : rng_state),
    all_empty paths ->
    for_each ts (gbm_step r sigma dt N) paths g = (Ok paths', g') ->
    all_empty paths'.
Proof.
  induction ts as [ | t ts IH]; intros paths paths' g g' Hall; simpl.
  - unfold ret. intros Heq. inversion Heq. now subst.
  - unfold bindM.
    destruct (gbm_step r sigma dt N t paths g) as [[p1 | e] g1] eqn:Hstep;
      [ | discriminate].
    apply IH. now apply (gbm_step_empty r sigma dt N t paths p1 g g1).
Qed.

Lemma get_last_col_empty (paths : ndarray) :
  all_empty paths -> paths <> [] -> get_last_col paths = Ok [].
Proof.
  intros Hall Hne. destruct paths as [ | c l]; [now elim Hne | ].
  unfold get_last_col, get_col.
  destruct (nth_error (c :: l) (length (c :: l) - 1)) as [d | ] eqn:Hd.
  - apply nth_error_In in Hd. unfold all_empty in Hall.
    rewrite Forall_forall in Hall. now rewrite (Hall d Hd).
  - apply nth_error_None in Hd. simpl in Hd. lia.
Qed.

Lemma simulate_no_paths (S T r sigma : R) (seed : Z) (g : rng_state) :
  valid_seed seed -> 0 <= T ->
  exists paths g',
    simulate_paths S T r sigma 0 seed g = (Ok paths, g') /\
    get_last_col paths = Ok [].
Proof.
  intros Hseed HT.
  destruct (simulate_paths_ok S T r sigma 0 seed g Hseed) as (p & g' & Hrun & Hlen);
    [lia | assumption | ].
  exists p, g'. split; [exact Hrun | ].
  apply get_last_col_empty; [ | destruct p; [simpl in Hlen; lia | discriminate]].
  revert Hrun. unfold simulate_paths, bindM.
  rewrite np_random_seed_ok by assumption. unfold lift, np_zeros.
  destruct ((0 <? 0)%Z || (mc_steps T + 1 <? 0)%Z)%bool; [discriminate | ].
  change (Z.to_nat 0) with 0%nat. cbn [repeat].
  destruct (fill_col (repeat [] (Z.to_nat (mc_steps T + 1))) 0 S)
    as [p0 | e] eqn:Hfill; [ | discriminate].
  apply for_each_gbm_empty.
  revert Hfill. unfold fill_col, get_col.
  destruct (nth_error (repeat [] (Z.to_nat (mc_steps T + 1))) 0) as [c | ] eqn:Hc;
    [ | discriminate].
  cbn [bind]. unfold set_col.
  destruct (0 <? length (repeat [] (Z.to_nat (mc_steps T + 1))))%nat;
    [ | discriminate].
  intros Heq. inversion Heq. apply replace_nth_Forall.
  - apply Forall_forall. intros d Hd. now apply repeat_spec in Hd.
  - apply nth_error_In in Hc. apply repeat_spec in Hc. now subst c.
Qed.

Lemma monte_carlo_negative_count (S K T r sigma : R) (N seed : Z) (g : rng_state) :
  (N < 0)%Z ->
  fst (monte_carlo_call S K T r sigma N seed g) = Raise ValueError /\
  fst (monte_carlo_put S K T r sigma N seed g) = Raise ValueError.
Proof.
  intros HN. unfold monte_carlo_call, monte_carlo_put, bindM.
  destruct (valid_seed_dec seed) as [Hs | Hs].
  - unfold simulate_paths, bindM. rewrite np_random_seed_ok by assumption.
    unfold lift, np_zeros. destruct (Z.ltb_spec N 0); [ | lia].
    split; reflexivity.
  - rewrite simulate_paths_bad_seed by assumption. split; reflexivity.
Qed.

Lemma monte_carlo_zero_count (S K T r sigma : R) (seed : Z) (g : rng_state) :
  valid_seed seed -> 0 <= T ->
  fst (monte_carlo_call S K T r sigma 0 seed g) = Ok NaN /\
  fst (monte_carlo_put S K T r sigma 0 seed g) = Ok NaN.
Proof.
  intros Hseed HT.
  destruct (simulate_no_paths S T r sigma seed g Hseed HT) as (p & g' & Hrun & Hlast).
  unfold monte_carlo_call, monte_carlo_put, bindM. rewrite Hrun.
  unfold lift. rewrite Hlast. split; reflexivity.
Qed.

End NoPaths.

Section ParameterChecks.
Context {N01 : StdNormal} {RNG : NumpyRandom}.
Import OptionGreeks.


End ParameterChecks.

(** ** The implied-volatility solver *)

Section SolverFacts.
Context {N01 : StdNormal} {OPT : ScalarMinimizer}.
Import ImpliedVolatility.

Lemma search_interval : 0.01 < 3.0.
Proof. lra. Qed.

Lemma d1_expr_unpriceable (S K T r : R) :
  unpriceable S K T ->
  exists e, forall sigma, d1_expr S K T r sigma = Raise e.
Proof.
  intros Hu.
  destruct (Req_dec_T K 0) as [HK | HK].
  { exists ZeroDivisionError. intros sigma.
    destruct (d1_expr_cases S K T r sigma) as (H1 & _). now apply H1. }
  destruct (Rlt_le_dec 0 (S / K)) as [Hq | Hq].
  2:{ exists ValueError. intros sigma.
      destruct (d1_expr_cases S K T r sigma) as (_ & H2 & _). now apply H2. }
  destruct (Rlt_le_dec T 0) as [HT | HT].
  { exists ValueError. intros sigma.
    destruct (d1_expr_cases S K T r sigma) as (_ & _ & H3 & _). now apply H3. }
  exists ZeroDivisionError. intros sigma.
  destruct (d1_expr_cases S K T r sigma) as (_ & _ & _ & H4 & _).
  apply H4; try assumption.
  assert (T = 0) as -> by (destruct Hu as [? | [? | ?]]; lra).
  rewrite sqrt_0. ring.
Qed.

Lemma objectives_unpriceable (S K T r market_price : R) :
  unpriceable S K T ->
  exists e, forall sigma,
    objective_call S K T r market_price sigma = Raise e /\
    objective_put S K T r market_price sigma = Raise e.
Proof.
  intros Hu. destruct (d1_expr_unpriceable S K T r Hu) as (e & He).
  exists e. intros sigma.
  unfold objective_call, objective_put, black_scholes_call, black_scholes_put.
  rewrite He. split; reflexivity.
Qed.

Lemma objectives_priceable (S K T r market_price sigma : R) :
  ~ unpriceable S K T -> 0 < sigma ->
  returns (objective_call S K T r market_price sigma) /\
  returns (objective_put S K T r market_price sigma).
Proof.
  intros Hn Hs.
  assert (Hacc : ~ rejected S K T sigma).
  { intros [H | [H | [H | H]]]; try lra; apply Hn; unfold unpriceable; tauto. }
  destruct (analytical_accepted S K T r sigma Hacc) as (Hc & Hp & _).
  unfold objective_call, objective_put. rewrite Hc, Hp.
  split; eexists; reflexivity.
Qed.

(** On unpriceable inputs the minimization raises and the solvers hand back
    [initial_guess]. *)
Lemma solvers_fall_back (S K T r market_price initial_guess : R) :
  unpriceable S K T ->
  call_fell_back S K T r market_price /\
  put_fell_back S K T r market_price /\
  solve_call S K T r market_price initial_guess = Ok initial_guess /\
  solve_put S K T r market_price initial_guess = Ok initial_guess.
Proof.
  intros Hu. destruct (objectives_unpriceable S K T r market_price Hu) as (e & He).
  assert (Hc : minimize_scalar (objective_call S K T r market_price) 0.01 3.0
               = Raise e).
  { apply minimize_scalar_propagates; [apply search_interval | ].
    intros y _. apply He. }
  assert (Hp : minimize_scalar (objective_put S K T r market_price) 0.01 3.0
               = Raise e).
  { apply minimize_scalar_propagates; [apply search_interval | ].
    intros y _. apply He. }
  unfold call_fell_back, put_fell_back, solve_call, solve_put, raises.
  rewrite Hc, Hp. repeat split; eauto.
Qed.

(** On priceable inputs the minimization ends with a result, and the
    solvers return its [x], which does not depend on [initial_guess]. *)
Lemma solvers_search (S K T r market_price : R) :
  ~ unpriceable S K T ->
  exists vc vp,
    0.01 <= vc <= 3.0 /\ 0.01 <= vp <= 3.0 /\
    ~ call_fell_back S K T r market_price /\
    ~ put_fell_back S K T r market_price /\
    forall initial_guess,
      solve_call S K T r market_price initial_guess = Ok vc /\
      solve_put S K T r market_price initial_guess = Ok vp.
Proof.
  intros Hn.
  destruct (minimize_scalar_total (objective_call S K T r market_price) 0.01 3.0
              search_interval) as (rc & Hrc & Hxc).
  { intros y Hy. apply objectives_priceable; [assumption | lra]. }
  destruct (minimize_scalar_total (objective_put S K T r market_price) 0.01 3.0
              search_interval) as (rp & Hrp & Hxp).
  { intros y Hy. apply objectives_priceable; [assumption | lra]. }
  exists (x rc), (x rp).
  unfold call_fell_back, put_fell_back, solve_call, solve_put, raises.
  rewrite Hrc, Hrp.
  repeat split; try tauto.
  - intros (e & He). discriminate.
  - intros (e & He). discriminate.
Qed.

Lemma priceable_example : ~ unpriceable 100 100 1.
Proof. unfold unpriceable. intros [H | [H | H]]; lra. Qed.

Lemma unpriceable_example : unpriceable 100 0 1.
Proof. now left. Qed.

(** The solvers return a bare number: a fallback whose [initial_guess] is
    the value of some converged solve cannot be told from that solve. *)
Lemma no_success_flag : ~ call_distinguishable /\ ~ put_distinguishable.
Proof.
  destruct (solvers_search 100 100 1 0.05 10.45 priceable_example)
    as (vc & vp & _ & _ & Hnc & Hnp & Hok).
  split; intros (flag & Hflag).
  - destruct (solvers_fall_back 100 0 1 0.05 10.45 vc unpriceable_example)
      as (Hfb & _ & Hback & _).
    pose proof (Hflag 100 100 1 0.05 10.45 0.3) as H1.
    pose proof (Hflag 100 0 1 0.05 10.45 vc) as H2.
    rewrite (proj1 (Hok 0.3)) in H1. rewrite Hback in H2.
    apply H2; [ | exact Hfb]. now apply H1.
  - destruct (solvers_fall_back 100 0 1 0.05 10.45 vp unpriceable_example)
      as (_ & Hfb & _ & Hback).
    pose proof (Hflag 100 100 1 0.05 10.45 0.3) as H1.
    pose proof (Hflag 100 0 1 0.05 10.45 vp) as H2.
    rewrite (proj2 (Hok 0.3)) in H1. rewrite Hback in H2.
    apply H2; [ | exact Hfb]. now apply H1.
Qed.



End SolverFacts.


(** * Further properties of the Greeks *)

Lemma valid_accepted (S K T sigma : R) :
  valid S K T sigma -> ~ rejected S K T sigma.
Proof.
  intros (HS & HK & HT & Hs) [H | [H | [H | H]]]; try lra.
  pose proof (ratio_pos S K HS HK). lra.
Qed.

Section GreekIdentities.
Context {N01 : StdNormal}.
Import OptionGreeks.

(** X1. On every input [delta_put] raises exactly when [delta_call] does,
    with the same error, and otherwise returns [delta_call - 1]. *)
Theorem delta_put_from_delta_call (S K T r sigma : R) :
  (forall e, delta_call S K T r sigma = Raise e <->
             delta_put S K T r sigma = Raise e) /\
  (forall dc, delta_call S K T r sigma = Ok dc ->
              delta_put S K T r sigma = Ok (dc - 1)).
Proof.
  unfold delta_call, delta_put.
  destruct (d1_expr S K T r sigma) as [v | e0]; cbn [bind]; split.
  - intros e. split; discriminate.
  - intros dc Hdc. inversion Hdc. reflexivity.
  - intros e. split; intros H; inversion H; reflexivity.
  - intros dc Hdc. discriminate.
Qed.

(** X2. For valid inputs the two thetas differ by the daily carry of the
    discounted strike: [theta_call - theta_put = - r * K * exp (- r * T) / 365]. *)
Theorem theta_parity (S K T r sigma : R) :
  valid S K T sigma ->
  exists tc tp,
    theta_call S K T r sigma = Ok tc /\
    theta_put S K T r sigma = Ok tp /\
    tc - tp = - r * K * exp (- r * T) / 365.
Proof.
  intros Hv.
  pose proof (valid_accepted S K T sigma Hv) as Hacc.
  destruct (analytical_accepted S K T r sigma Hacc)
    as (_ & _ & _ & _ & _ & _ & Htc & Htp & _).
  eexists. eexists. split; [exact Htc | ]. split; [exact Htp | ].
  destruct Hv as (_ & _ & HT & _).
  assert (Hq : 0 < sqrt T) by now apply sqrt_lt_R0.
  rewrite norm_cdf_sym. field. lra.
Qed.

(** X3. For valid inputs the two rhos differ by the rate sensitivity of the
    discounted strike: [rho_call - rho_put = K * T * exp (- r * T) / 100]. *)
Theorem rho_parity (S K T r sigma : R) :
  valid S K T sigma ->
  exists rc rp,
    rho_call S K T r sigma = Ok rc /\
    rho_put S K T r sigma = Ok rp /\
    rc - rp = K * T * exp (- r * T) / 100.
Proof.
  intros Hv.
  eexists. eexists. split; [now apply rho_call_valid | ].
  split; [now apply rho_put_valid | ].
  rewrite norm_cdf_sym. field.
Qed.

(** X4. For valid inputs vega is gamma scaled by [S^2 * sigma * T / 100]. *)
Theorem vega_from_gamma (S K T r sigma : R) :
  valid S K T sigma ->
  exists g v,
    gamma S K T r sigma = Ok g /\
    vega S K T r sigma = Ok v /\
    v = g * S ^ 2 * sigma * T / 100.
Proof.
  intros Hv.
  eexists. eexists. split; [now apply gamma_valid | ].
  split; [now apply vega_valid | ].
  destruct Hv as (HS & HK & HT & Hs).
  assert (Hsq : sqrt T * sqrt T = T) by (apply sqrt_sqrt; lra).
  assert (Hq : 0 < sqrt T) by now apply sqrt_lt_R0.
  set (p := norm_pdf (d1 S K T r sigma)).
  set (s := sqrt T) in *. clearbody s p. subst T.
  field. repeat split; lra.
Qed.

(** X5. For valid inputs and a nonnegative rate the call loses value with
    the passing of time ([theta_call <= 0]); whatever the rate, [rho_call]
    is nonnegative and [rho_put] nonpositive. *)
Theorem theta_rho_signs (S K T r sigma : R) :
  valid S K T sigma ->
  exists tc rc rp,
    theta_call S K T r sigma = Ok tc /\
    rho_call S K T r sigma = Ok rc /\
    rho_put S K T r sigma = Ok rp /\
    (0 <= r -> tc <= 0) /\ 0 <= rc /\ rp <= 0.
Proof.
  intros Hv.
  pose proof (valid_accepted S K T sigma Hv) as Hacc.
  destruct (analytical_accepted S K T r sigma Hacc)
    as (_ & _ & _ & _ & _ & _ & Htc & _ & Hrc & Hrp).
  do 3 eexists. split; [exact Htc | ]. split; [exact Hrc | ].
  split; [exact Hrp | ].
  destruct Hv as (HS & HK & HT & Hs).
  pose proof (norm_cdf_range (d2 S K T r sigma)) as [Hc0 Hc1].
  pose proof (norm_cdf_range (- d2 S K T r sigma)) as [Hn0 Hn1].
  pose proof (norm_pdf_pos (d1 S K T r sigma)) as Hp.
  pose proof (exp_pos (- r * T)) as He.
  assert (Hq : 0 < sqrt T) by now apply sqrt_lt_R0.
  assert (HKE : 0 < K * exp (- r * T)) by now apply Rmult_lt_0_compat.
  assert (HKTE : 0 < K * T * exp (- r * T)).
  { apply Rmult_lt_0_compat; [now apply Rmult_lt_0_compat | assumption]. }
  split; [ | split].
  - intros Hr.
    assert (H1 : 0 <= S * norm_pdf (d1 S K T r sigma) * sigma / (2 * sqrt T)).
    { apply Rlt_le, Rdiv_lt_0_compat; [ | lra].
      apply Rmult_lt_0_compat; [now apply Rmult_lt_0_compat | assumption]. }
    assert (H2 : 0 <= r * (K * exp (- r * T)) * norm_cdf (d2 S K T r sigma)).
    { apply Rmult_le_pos; [apply Rmult_le_pos; lra | assumption]. }
    replace (- S * norm_pdf (d1 S K T r sigma) * sigma / (2 * sqrt T))
      with (- (S * norm_pdf (d1 S K T r sigma) * sigma / (2 * sqrt T)))
      by (field; lra).
    lra.
  - assert (0 <= K * T * exp (- r * T) * norm_cdf (d2 S K T r sigma))
      by (apply Rmult_le_pos; lra).
    lra.
  - assert (0 <= K * T * exp (- r * T) * norm_cdf (- d2 S K T r sigma))
      by (apply Rmult_le_pos; lra).
    lra.
Qed.

(** X6. For valid inputs the call is worth no more than the spot price and
    the put no more than the discounted strike. *)
Theorem price_upper_bounds (S K T r sigma : R) :
  valid S K T sigma ->
  exists c p,
    black_scholes_call S K T r sigma = Ok c /\
    black_scholes_put S K T r sigma = Ok p /\
    c <= S /\ p <= K * exp (- r * T).
Proof.
  intros Hv.
  eexists. eexists. split; [now apply black_scholes_call_valid | ].
  split; [now apply black_scholes_put_valid | ].
  destruct Hv as (HS & HK & HT & Hs).
  pose proof (norm_cdf_range (d1 S K T r sigma)) as [Ha0 Ha1].
  pose proof (norm_cdf_range (d2 S K T r sigma)) as [Hb0 Hb1].
  pose proof (norm_cdf_range (- d1 S K T r sigma)) as [Hc0 Hc1].
  pose proof (norm_cdf_range (- d2 S K T r sigma)) as [Hd0 Hd1].
  pose proof (exp_pos (- r * T)) as He.
  assert (HKE : 0 < K * exp (- r * T)) by now apply Rmult_lt_0_compat.
  split; nra.
Qed.

End GreekIdentities.

(** ** The Greeks are the sensitivities of the pricer *)

Section Sensitivities.
Context {N01 : StdNormal}.
Import OptionGreeks.

Lemma value_of_call (S K T r sigma : R) :
  valid S K T sigma ->
  value_of (black_scholes_call S K T r sigma) = call_value S K T r sigma.
Proof. intros Hv. now rewrite black_scholes_call_valid. Qed.

Lemma value_of_put (S K T r sigma : R) :
  valid S K T sigma ->
  value_of (black_scholes_put S K T r sigma) = put_value S K T r sigma.
Proof. intros Hv. now rewrite black_scholes_put_valid. Qed.

Lemma value_of_delta_call (S K T r sigma : R) :
  valid S K T sigma ->
  value_of (delta_call S K T r sigma) = norm_cdf (d1 S K T r sigma).
Proof. intros Hv. now rewrite delta_call_valid. Qed.

Lemma value_of_delta_put (S K T r sigma : R) :
  valid S K T sigma ->
  value_of (delta_put S K T r sigma) = norm_cdf (d1 S K T r sigma) - 1.
Proof. intros Hv. now rewrite delta_put_valid. Qed.

Lemma put_value_deriv_S (S K T r sigma : R) :
  valid S K T sigma ->
  derivable_pt_lim (fun y => put_value y K T r sigma) S
    (norm_cdf (d1 S K T r sigma) - 1).
Proof.
  intros Hv.
  apply (derivable_pt_lim_ext
           (fun y => call_value y K T r sigma - y + K * exp (- r * T))).
  { intros z. symmetry. apply put_value_parity. }
  eapply dl_eq.
  - apply dl_plus; [ | apply dl_const].
    apply dl_minus; [now apply call_value_deriv_S | apply dl_id].
  - ring.
Qed.

Lemma put_value_deriv_sigma (S K T r sigma : R) :
  valid S K T sigma ->
  derivable_pt_lim (fun y => put_value S K T r y) sigma
    (S * norm_pdf (d1 S K T r sigma) * sqrt T).
Proof.
  intros Hv.
  apply (derivable_pt_lim_ext
           (fun y => call_value S K T r y - S + K * exp (- r * T))).
  { intros z. symmetry. apply put_value_parity. }
  eapply dl_eq.
  - apply dl_plus; [ | apply dl_const].
    apply dl_minus; [now apply call_value_deriv_sigma | apply dl_const].
  - ring.
Qed.

(** The code's function of the spot price agrees with a real function
    around a valid point, and so has its derivative there. *)
Lemma deriv_in_spot (code : R -> R -> R -> R -> R -> pyresult R)
    (form : R -> R -> R -> R -> R -> R) (S K T r sigma l : R) :
  (forall y, valid y K T sigma ->
     value_of (code y K T r sigma) = form y K T r sigma) ->
  valid S K T sigma ->
  derivable_pt_lim (fun y => form y K T r sigma) S l ->
  derivable_pt_lim (fun y => value_of (code y K T r sigma)) S l.
Proof.
  intros Hform (HS & HK & HT & Hs) Hd.
  apply (derivable_pt_lim_locally_ext (fun y => form y K T r sigma)
           (fun y => value_of (code y K T r sigma)) S (S / 2) (S + 1));
    [lra | | exact Hd].
  intros z Hz. symmetry. apply Hform. repeat split; lra.
Qed.

Lemma deriv_in_vol (code : R -> R -> R -> R -> R -> pyresult R)
    (form : R -> R -> R -> R -> R -> R) (S K T r sigma l : R) :
  (forall y, valid S K T y ->
     value_of (code S K T r y) = form S K T r y) ->
  valid S K T sigma ->
  derivable_pt_lim (fun y => form S K T r y) sigma l ->
  derivable_pt_lim (fun y => value_of (code S K T r y)) sigma l.
Proof.
  intros Hform (HS & HK & HT & Hs) Hd.
  apply (derivable_pt_lim_locally_ext (fun y => form S K T r y)
           (fun y => value_of (code S K T r y)) sigma (sigma / 2) (sigma + 1));
    [lra | | exact Hd].
  intros z Hz. symmetry. apply Hform. repeat split; lra.
Qed.

Lemma deriv_in_rate (code : R -> R -> R -> R -> R -> pyresult R)
    (form : R -> R -> R -> R -> R -> R) (S K T r sigma l : R) :
  (forall y, valid S K T sigma ->
     value_of (code S K T y sigma) = form S K T y sigma) ->
  valid S K T sigma ->
  derivable_pt_lim (fun y => form S K T y sigma) r l ->
  derivable_pt_lim (fun y => value_of (code S K T y sigma)) r l.
Proof.
  intros Hform Hv Hd.
  apply (derivable_pt_lim_ext (fun y => form S K T y sigma)); [ | exact Hd].
  intros z. symmetry. now apply Hform.
Qed.

Lemma deriv_in_maturity (code : R -> R -> R -> R -> R -> pyresult R)
    (form : R -> R -> R -> R -> R -> R) (S K T r sigma l : R) :
  (forall y, valid S K y sigma ->
     value_of (code S K y r sigma) = form S K y r sigma) ->
  valid S K T sigma ->
  derivable_pt_lim (fun y => form S K y r sigma) T l ->
  derivable_pt_lim (fun y => value_of (code S K y r sigma)) T l.
Proof.
  intros Hform (HS & HK & HT & Hs) Hd.
  apply (derivable_pt_lim_locally_ext (fun y => form S K y r sigma)
           (fun y => value_of (code S K y r sigma)) T (T / 2) (T + 1));
    [lra | | exact Hd].
  intros z Hz. symmetry. apply Hform. repeat split; lra.
Qed.

(** X7. For valid inputs [delta_call] is the derivative of the call price
    in the spot price and [delta_put] that of the put price. *)
Theorem delta_is_spot_sensitivity (S K T r sigma : R) :
  valid S K T sigma ->
  exists dc dp,
    delta_call S K T r sigma = Ok dc /\
    delta_put S K T r sigma = Ok dp /\
    derivable_pt_lim
      (fun y => value_of (black_scholes_call y K T r sigma)) S dc /\
    derivable_pt_lim
      (fun y => value_of (black_scholes_put y K T r sigma)) S dp.
Proof.
  intros Hv. eexists. eexists.
  split; [now apply delta_call_valid | ].
  split; [now apply delta_put_valid | ].
  split.
  - apply (deriv_in_spot black_scholes_call call_value); try assumption.
    + intros y Hy. now apply value_of_call.
    + now apply call_value_deriv_S.
  - apply (deriv_in_spot black_scholes_put put_value); try assumption.
    + intros y Hy. now apply value_of_put.
    + now apply put_value_deriv_S.
Qed.

Lemma cdf_d1_deriv_S (S K T r sigma : R) :
  valid S K T sigma ->
  derivable_pt_lim (fun y => norm_cdf (d1 y K T r sigma)) S
    (norm_pdf (d1 S K T r sigma) / (S * sigma * sqrt T)).
Proof.
  intros Hv. eapply dl_eq.
  - apply (dl_comp (fun y => d1 y K T r sigma) norm_cdf);
      [now apply d1_deriv_S | apply norm_cdf_deriv].
  - destruct Hv as (HS & HK & HT & Hs).
    assert (Hq : 0 < sqrt T) by now apply sqrt_lt_R0.
    field. repeat split; lra.
Qed.

(** X8. For valid inputs [gamma] is the derivative of [delta_call], and of
    [delta_put], in the spot price. *)
Theorem gamma_is_delta_sensitivity (S K T r sigma : R) :
  valid S K T sigma ->
  exists g,
    gamma S K T r sigma = Ok g /\
    derivable_pt_lim (fun y => value_of (delta_call y K T r sigma)) S g /\
    derivable_pt_lim (fun y => value_of (delta_put y K T r sigma)) S g.
Proof.
  intros Hv. eexists. split; [now apply gamma_valid | ].
  split.
  - apply (deriv_in_spot delta_call (fun S K T r sigma => norm_cdf (d1 S K T r sigma)));
      try assumption.
    + intros y Hy. now apply value_of_delta_call.
    + now apply cdf_d1_deriv_S.
  - apply (deriv_in_spot delta_put
             (fun S K T r sigma => norm_cdf (d1 S K T r sigma) - 1));
      try assumption.
    + intros y Hy. now apply value_of_delta_put.
    + eapply dl_eq.
      * apply dl_minus; [now apply cdf_d1_deriv_S | apply dl_const].
      * ring.
Qed.

(** X9. For valid inputs [vega], which is scaled to a change of one
    percentage point, is a hundredth of the derivative of the call price, and
    of the put price, in the volatility. *)
Theorem vega_is_vol_sensitivity (S K T r sigma : R) :
  valid S K T sigma ->
  exists v,
    vega S K T r sigma = Ok v /\
    derivable_pt_lim
      (fun y => value_of (black_scholes_call S K T r y)) sigma (100 * v) /\
    derivable_pt_lim
      (fun y => value_of (black_scholes_put S K T r y)) sigma (100 * v).
Proof.
  intros Hv. eexists. split; [now apply vega_valid | ].
  split.
  - apply (deriv_in_vol black_scholes_call call_value); try assumption.
    + intros y Hy. now apply value_of_call.
    + eapply dl_eq; [now apply call_value_deriv_sigma | field].
  - apply (deriv_in_vol black_scholes_put put_value); try assumption.
    + intros y Hy. now apply value_of_put.
    + eapply dl_eq; [now apply put_value_deriv_sigma | field].
Qed.

Lemma dl_neg_scaled (c y : R) : derivable_pt_lim (fun z => - z * c) y (- c).
Proof.
  apply (derivable_pt_lim_ext (fun z => - c * z)); [intros z; ring | ].
  eapply dl_eq; [apply dl_scal; apply dl_id | ring].
Qed.

Lemma d1_deriv_r (S K T r sigma : R) :
  valid S K T sigma ->
  derivable_pt_lim (fun y => d1 S K T y sigma) r (T / (sigma * sqrt T)).
Proof.
  intros Hv. unfold d1. apply dl_div_const.
  eapply dl_eq.
  - apply dl_plus; [apply dl_const | ].
    apply (dl_mult (fun z => z + 0.5 * sigma ^ 2) (fun _ => T)); [ | apply dl_const].
    apply dl_plus; [apply dl_id | apply dl_const].
  - ring.
Qed.

Lemma d2_deriv_r (S K T r sigma : R) :
  valid S K T sigma ->
  derivable_pt_lim (fun y => d2 S K T y sigma) r (T / (sigma * sqrt T)).
Proof.
  intros Hv. unfold d2. eapply dl_eq.
  - apply dl_minus; [now apply d1_deriv_r | apply dl_const].
  - ring.
Qed.

(** Rho: the derivative of the call value in the rate is
    [K * T * exp (- r * T) * Phi d2]. *)
Lemma call_value_deriv_r (S K T r sigma : R) :
  valid S K T sigma ->
  derivable_pt_lim (fun y => call_value S K T y sigma) r
    (K * T * exp (- r * T) * norm_cdf (d2 S K T r sigma)).
Proof.
  intros Hv. pose proof (pdf_d1_d2 S K T r sigma Hv) as Hid.
  unfold call_value. eapply dl_eq.
  - apply dl_minus.
    + apply dl_scal.
      apply (dl_comp (fun y => d1 S K T y sigma) norm_cdf);
        [now apply d1_deriv_r | apply norm_cdf_deriv].
    + apply (dl_mult (fun y => K * exp (- y * T))
                     (fun y => norm_cdf (d2 S K T y sigma))).
      * apply dl_scal.
        apply (dl_comp (fun y => - y * T) exp);
          [apply dl_neg_scaled | apply derivable_pt_lim_exp].
      * apply (dl_comp (fun y => d2 S K T y sigma) norm_cdf);
          [now apply d2_deriv_r | apply norm_cdf_deriv].
  - cbv beta.
    set (p1 := norm_pdf (d1 S K T r sigma)) in *.
    set (p2 := norm_pdf (d2 S K T r sigma)) in *.
    set (E := exp (- r * T)) in *.
    set (l := T / (sigma * sqrt T)).
    transitivity ((S * p1 - K * E * p2) * l
                  + K * T * E * norm_cdf (d2 S K T r sigma)); [ring | ].
    rewrite Hid. ring.
Qed.

Lemma put_value_deriv_r (S K T r sigma : R) :
  valid S K T sigma ->
  derivable_pt_lim (fun y => put_value S K T y sigma) r
    (- K * T * exp (- r * T) * norm_cdf (- d2 S K T r sigma)).
Proof.
  intros Hv.
  apply (derivable_pt_lim_ext
           (fun y => call_value S K T y sigma - S + K * exp (- y * T))).
  { intros z. symmetry. apply put_value_parity. }
  eapply dl_eq.
  - apply dl_plus.
    + apply dl_minus; [now apply call_value_deriv_r | apply dl_const].
    + apply dl_scal.
      apply (dl_comp (fun y => - y * T) exp);
        [apply dl_neg_scaled | apply derivable_pt_lim_exp].
  - cbv beta. rewrite norm_cdf_sym. ring.
Qed.

(** X10. For valid inputs [rho_call] and [rho_put], which are scaled to a
    rate change of one percentage point, are a hundredth of the derivatives
    of the call and put prices in the rate. *)
Theorem rho_is_rate_sensitivity (S K T r sigma : R) :
  valid S K T sigma ->
  exists rc rp,
    rho_call S K T r sigma = Ok rc /\
    rho_put S K T r sigma = Ok rp /\
    derivable_pt_lim
      (fun y => value_of (black_scholes_call S K T y sigma)) r (100 * rc) /\
    derivable_pt_lim
      (fun y => value_of (black_scholes_put S K T y sigma)) r (100 * rp).
Proof.
  intros Hv. eexists. eexists.
  split; [now apply rho_call_valid | ].
  split; [now apply rho_put_valid | ].
  split.
  - apply (deriv_in_rate black_scholes_call call_value); try assumption.
    + intros y Hy. now apply value_of_call.
    + eapply dl_eq; [now apply call_value_deriv_r | field].
  - apply (deriv_in_rate black_scholes_put put_value); try assumption.
    + intros y Hy. now apply value_of_put.
    + eapply dl_eq; [now apply put_value_deriv_r | field].
Qed.

Lemma d1_deriv_T (S K T r sigma : R) :
  valid S K T sigma ->
  exists l, derivable_pt_lim (fun y => d1 S K y r sigma) T l.
Proof.
  intros (HS & HK & HT & Hs).
  pose proof (vol_sqrt_pos T sigma HT Hs) as Hv.
  unfold d1. eexists.
  apply (dl_div (fun z => ln (S / K) + (r + 0.5 * sigma ^ 2) * z)
                (fun z => sigma * sqrt z)).
  - apply dl_plus; [apply dl_const | ]. apply dl_scal. apply dl_id.
  - apply dl_scal. now apply derivable_pt_lim_sqrt.
  - lra.
Qed.

(** The derivative of the call value in the maturity is
    [S * phi d1 * sigma / (2 * sqrt T) + r * K * exp (- r * T) * Phi d2]. *)
Lemma call_value_deriv_T (S K T r sigma : R) :
  valid S K T sigma ->
  derivable_pt_lim (fun y => call_value S K y r sigma) T
    (S * norm_pdf (d1 S K T r sigma) * sigma / (2 * sqrt T)
     + r * K * exp (- r * T) * norm_cdf (d2 S K T r sigma)).
Proof.
  intros Hv. pose proof (pdf_d1_d2 S K T r sigma Hv) as Hid.
  destruct (d1_deriv_T S K T r sigma Hv) as (l & Hl).
  assert (HT : 0 < T) by (destruct Hv as (_ & _ & HT & _); exact HT).
  assert (Hq : 0 < sqrt T) by now apply sqrt_lt_R0.
  assert (Hl2 : derivable_pt_lim (fun y => d2 S K y r sigma) T
                  (l - sigma * / (2 * sqrt T))).
  { unfold d2. apply dl_minus; [exact Hl | ].
    apply dl_scal. now apply derivable_pt_lim_sqrt. }
  unfold call_value. eapply dl_eq.
  - apply dl_minus.
    + apply dl_scal.
      apply (dl_comp (fun y => d1 S K y r sigma) norm_cdf);
        [exact Hl | apply norm_cdf_deriv].
    + apply (dl_mult (fun y => K * exp (- r * y))
                     (fun y => norm_cdf (d2 S K y r sigma))).
      * apply dl_scal.
        apply (dl_comp (fun y => - r * y) exp);
          [apply dl_scal; apply dl_id | apply derivable_pt_lim_exp].
      * apply (dl_comp (fun y => d2 S K y r sigma) norm_cdf);
          [exact Hl2 | apply norm_cdf_deriv].
  - cbv beta.
    set (p1 := norm_pdf (d1 S K T r sigma)) in *.
    set (p2 := norm_pdf (d2 S K T r sigma)) in *.
    set (E := exp (- r * T)) in *.
    transitivity ((S * p1 - K * E * p2) * l
                  + K * E * p2 * (sigma * / (2 * sqrt T))
                  + r * K * E * norm_cdf (d2 S K T r sigma)); [ring | ].
    rewrite <- Hid. field. lra.
Qed.

Lemma put_value_deriv_T (S K T r sigma : R) :
  valid S K T sigma ->
  derivable_pt_lim (fun y => put_value S K y r sigma) T
    (S * norm_pdf (d1 S K T r sigma) * sigma / (2 * sqrt T)
     - r * K * exp (- r * T) * norm_cdf (- d2 S K T r sigma)).
Proof.
  intros Hv.
  apply (derivable_pt_lim_ext
           (fun y => call_value S K y r sigma - S + K * exp (- r * y))).
  { intros z. symmetry. apply put_value_parity. }
  eapply dl_eq.
  - apply dl_plus.
    + apply dl_minus; [now apply call_value_deriv_T | apply dl_const].
    + apply dl_scal.
      apply (dl_comp (fun y => - r * y) exp);
        [apply dl_scal; apply dl_id | apply derivable_pt_lim_exp].
  - cbv beta. rewrite norm_cdf_sym. ring.
Qed.

(** X11. For valid inputs [theta_call] and [theta_put], which are scaled
    to one calendar day, are minus a 365th of the derivatives of the call
    and put prices in the time to maturity. *)
Theorem theta_is_time_decay (S K T r sigma : R) :
  valid S K T sigma ->
  exists tc tp,
    theta_call S K T r sigma = Ok tc /\
    theta_put S K T r sigma = Ok tp /\
    derivable_pt_lim
      (fun y => value_of (black_scholes_call S K y r sigma)) T (- 365 * tc) /\
    derivable_pt_lim
      (fun y => value_of (black_scholes_put S K y r sigma)) T (- 365 * tp).
Proof.
  intros Hv.
  destruct (analytical_accepted S K T r sigma (valid_accepted S K T sigma Hv))
    as (_ & _ & _ & _ & _ & _ & Htc & Htp & _).
  assert (HT : 0 < T) by (destruct Hv as (_ & _ & HT & _); exact HT).
  assert (Hq : 0 < sqrt T) by now apply sqrt_lt_R0.
  eexists. eexists.
  split; [exact Htc | ]. split; [exact Htp | ].
  split.
  - apply (deriv_in_maturity black_scholes_call call_value); try assumption.
    + intros y Hy. now apply value_of_call.
    + eapply dl_eq; [now apply call_value_deriv_T | field; lra].
  - apply (deriv_in_maturity black_scholes_put put_value); try assumption.
    + intros y Hy. now apply value_of_put.
    + eapply dl_eq; [now apply put_value_deriv_T | field; lra].
Qed.

End Sensitivities.

(** ** Monotonicity in the strike, the rate and the maturity *)

Lemma nonpos_derivative_decr (f f' : R -> R) (a b : R) :
  a <= b ->
  (forall c, a <= c <= b -> derivable_pt_lim f c (f' c)) ->
  (forall c, a <= c <= b -> f' c <= 0) ->
  f b <= f a.
Proof.
  intros [Hab | ->] Hd Hneg; [ | lra].
  destruct (MVT_cor2 f f' a b Hab Hd) as (c & Hc & Hin).
  assert (0 <= - f' c * (b - a)).
  { apply Rmult_le_pos; [ | lra]. assert (f' c <= 0) by (apply Hneg; lra). lra. }
  lra.
Qed.

Section MoreMonotonicity.
Context {N01 : StdNormal}.

Lemma d1_deriv_K (S K T r sigma : R) :
  valid S K T sigma ->
  derivable_pt_lim (fun y => d1 S y T r sigma) K (- / (K * (sigma * sqrt T))).
Proof.
  intros (HS & HK & HT & Hs).
  pose proof (vol_sqrt_pos T sigma HT Hs) as Hv.
  assert (Hq : 0 < sqrt T) by now apply sqrt_lt_R0.
  unfold d1. eapply dl_eq.
  - apply dl_div_const. apply dl_plus; [ | apply dl_const].
    apply (dl_comp (fun z => S / z) ln).
    + apply (dl_div (fun _ => S) (fun z => z)); [apply dl_const | apply dl_id | lra].
    + apply derivable_pt_lim_ln. now apply ratio_pos.
  - unfold Rsqr. field. repeat split; lra.
Qed.

Lemma d2_deriv_K (S K T r sigma : R) :
  valid S K T sigma ->
  derivable_pt_lim (fun y => d2 S y T r sigma) K (- / (K * (sigma * sqrt T))).
Proof.
  intros Hv. unfold d2. eapply dl_eq.
  - apply dl_minus; [now apply d1_deriv_K | apply dl_const].
  - ring.
Qed.

(** The derivative of the call value in the strike is
    [- exp (- r * T) * Phi d2]. *)
Lemma call_value_deriv_K (S K T r sigma : R) :
  valid S K T sigma ->
  derivable_pt_lim (fun y => call_value S y T r sigma) K
    (- exp (- r * T) * norm_cdf (d2 S K T r sigma)).
Proof.
  intros Hv. pose proof (pdf_d1_d2 S K T r sigma Hv) as Hid.
  unfold call_value. eapply dl_eq.
  - apply dl_minus.
    + apply dl_scal.
      apply (dl_comp (fun y => d1 S y T r sigma) norm_cdf);
        [now apply d1_deriv_K | apply norm_cdf_deriv].
    + apply (dl_mult (fun y => y * exp (- r * T))
                     (fun y => norm_cdf (d2 S y T r sigma))).
      * apply (dl_mult (fun y => y) (fun _ => exp (- r * T)));
          [apply dl_id | apply dl_const].
      * apply (dl_comp (fun y => d2 S y T r sigma) norm_cdf);
          [now apply d2_deriv_K | apply norm_cdf_deriv].
  - cbv beta. destruct Hv as (HS & HK & HT & Hs).
    pose proof (vol_sqrt_pos T sigma HT Hs) as Hvs.
    set (a := sigma * sqrt T) in *.
    set (p1 := norm_pdf (d1 S K T r sigma)) in *.
    set (p2 := norm_pdf (d2 S K T r sigma)) in *.
    set (E := exp (- r * T)) in *.
    transitivity (- (S * p1 - K * E * p2) / (K * a)
                  - E * norm_cdf (d2 S K T r sigma)); [field; lra | ].
    rewrite Hid. unfold Rdiv. ring.
Qed.

Lemma put_value_deriv_K (S K T r sigma : R) :
  valid S K T sigma ->
  derivable_pt_lim (fun y => put_value S y T r sigma) K
    (exp (- r * T) * norm_cdf (- d2 S K T r sigma)).
Proof.
  intros Hv.
  apply (derivable_pt_lim_ext
           (fun y => call_value S y T r sigma - S + y * exp (- r * T))).
  { intros z. symmetry. apply put_value_parity. }
  eapply dl_eq.
  - apply dl_plus.
    + apply dl_minus; [now apply call_value_deriv_K | apply dl_const].
    + apply (dl_mult (fun y => y) (fun _ => exp (- r * T)));
        [apply dl_id | apply dl_const].
  - cbv beta. rewrite norm_cdf_sym. ring.
Qed.

Lemma valid_strike (S K T sigma c : R) :
  valid S K T sigma -> K <= c -> valid S c T sigma.
Proof. intros (HS & HK & HT & Hs) Hc. repeat split; lra. Qed.

Lemma valid_maturity (S K T sigma c : R) :
  valid S K T sigma -> T <= c -> valid S K c sigma.
Proof. intros (HS & HK & HT & Hs) Hc. repeat split; lra. Qed.

Lemma discount_cdf_nonneg (K a y : R) : 0 < K -> 0 <= K * exp a * norm_cdf y.
Proof.
  intros HK. pose proof (exp_pos a). pose proof (norm_cdf_range y) as [H0 _].
  apply Rmult_le_pos; [ | assumption]. apply Rlt_le. now apply Rmult_lt_0_compat.
Qed.

(** X12. For valid inputs a higher strike makes the call cheaper and the
    put dearer, and a higher rate makes the call dearer and the put
    cheaper. *)
Theorem price_monotone_in_strike_and_rate (S K T r sigma K' r' : R) :
  valid S K T sigma -> K <= K' -> r <= r' ->
  exists c cK cr p pK pr,
    black_scholes_call S K T r sigma = Ok c /\
    black_scholes_call S K' T r sigma = Ok cK /\
    black_scholes_call S K T r' sigma = Ok cr /\
    black_scholes_put S K T r sigma = Ok p /\
    black_scholes_put S K' T r sigma = Ok pK /\
    black_scholes_put S K T r' sigma = Ok pr /\
    cK <= c /\ c <= cr /\ p <= pK /\ pr <= p.
Proof.
  intros Hv HK Hr.
  assert (HvK : valid S K' T sigma) by now apply (valid_strike S K).
  exists (call_value S K T r sigma), (call_value S K' T r sigma),
    (call_value S K T r' sigma), (put_value S K T r sigma),
    (put_value S K' T r sigma), (put_value S K T r' sigma).
  repeat (split; [now (apply black_scholes_call_valid
                       || apply black_scholes_put_valid) | ]).
  assert (HK0 : 0 < K) by (destruct Hv as (_ & HK0 & _); exact HK0).
  assert (HT0 : 0 < T) by (destruct Hv as (_ & _ & HT0 & _); exact HT0).
  split; [ | split; [ | split]].
  - apply (nonpos_derivative_decr (fun y => call_value S y T r sigma)
             (fun y => - exp (- r * T) * norm_cdf (d2 S y T r sigma)));
      [exact HK | | ].
    + intros c [Hc _]. apply call_value_deriv_K. now apply (valid_strike S K).
    + intros c _. pose proof (discount_cdf_nonneg 1 (- r * T) (d2 S c T r sigma)).
      lra.
  - apply (nonneg_derivative_incr (fun y => call_value S K T y sigma)
             (fun y => K * T * exp (- y * T) * norm_cdf (d2 S K T y sigma)));
      [exact Hr | | ].
    + intros c _. now apply call_value_deriv_r.
    + intros c _.
      pose proof (discount_cdf_nonneg (K * T) (- c * T) (d2 S K T c sigma)) as H.
      apply H. now apply Rmult_lt_0_compat.
  - apply (nonneg_derivative_incr (fun y => put_value S y T r sigma)
             (fun y => exp (- r * T) * norm_cdf (- d2 S y T r sigma)));
      [exact HK | | ].
    + intros c [Hc _]. apply put_value_deriv_K. now apply (valid_strike S K).
    + intros c _. pose proof (discount_cdf_nonneg 1 (- r * T) (- d2 S c T r sigma)).
      lra.
  - apply (nonpos_derivative_decr (fun y => put_value S K T y sigma)
             (fun y => - K * T * exp (- y * T) * norm_cdf (- d2 S K T y sigma)));
      [exact Hr | | ].
    + intros c _. now apply put_value_deriv_r.
    + intros c _.
      pose proof (discount_cdf_nonneg (K * T) (- c * T) (- d2 S K T c sigma)) as H.
      assert (0 < K * T) by now apply Rmult_lt_0_compat.
      specialize (H H0). lra.
Qed.

(** X13. For valid inputs and a nonnegative rate a longer maturity never
    makes the call cheaper. *)
Theorem call_monotone_in_maturity (S K T r sigma T' : R) :
  valid S K T sigma -> 0 <= r -> T <= T' ->
  exists c cT,
    black_scholes_call S K T r sigma = Ok c /\
    black_scholes_call S K T' r sigma = Ok cT /\
    c <= cT.
Proof.
  intros Hv Hr HT.
  assert (HvT : valid S K T' sigma) by now apply (valid_maturity S K T).
  exists (call_value S K T r sigma), (call_value S K T' r sigma).
  split; [now apply black_scholes_call_valid | ].
  split; [now apply black_scholes_call_valid | ].
  apply (nonneg_derivative_incr (fun y => call_value S K y r sigma)
           (fun y => S * norm_pdf (d1 S K y r sigma) * sigma / (2 * sqrt y)
                     + r * K * exp (- r * y) * norm_cdf (d2 S K y r sigma)));
    [exact HT | | ].
  - intros c [Hc _]. apply call_value_deriv_T. now apply (valid_maturity S K T).
  - intros c [Hc _]. destruct Hv as (HS & HK & HT0 & Hs).
    assert (Hq : 0 < sqrt c) by (apply sqrt_lt_R0; lra).
    pose proof (norm_pdf_pos (d1 S K c r sigma)) as Hp.
    pose proof (discount_cdf_nonneg K (- r * c) (d2 S K c r sigma) HK) as Hd.
    assert (H1 : 0 <= S * norm_pdf (d1 S K c r sigma) * sigma / (2 * sqrt c)).
    { apply Rlt_le, Rdiv_lt_0_compat; [ | lra].
      apply Rmult_lt_0_compat; [now apply Rmult_lt_0_compat | assumption]. }
    assert (H2 : 0 <= r * (K * exp (- r * c) * norm_cdf (d2 S K c r sigma)))
      by now apply Rmult_le_pos.
    lra.
Qed.

End MoreMonotonicity.

(** * Further properties of the simulation pricer *)

Lemma sum_nonneg (l : list R) :
  Forall (fun v => 0 <= v) l -> 0 <= fold_right Rplus 0 l.
Proof.
  induction 1 as [ | v l Hv Hl IH]; simpl; lra.
Qed.

Lemma payoff_sum_parity (K : R) (l : list R) :
  fold_right Rplus 0 (map (fun v => Rmax (v - K) 0) l)
  - fold_right Rplus 0 (map (fun v => Rmax (K - v) 0) l)
  = fold_right Rplus 0 l - INR (length l) * K.
Proof.
  induction l as [ | v l IH]; [simpl; ring | ].
  change (length (v :: l)) with (Datatypes.S (length l)). rewrite S_INR.
  simpl map. simpl fold_right.
  assert (Hv : Rmax (v - K) 0 - Rmax (K - v) 0 = v - K).
  { unfold Rmax. destruct (Rle_dec (v - K) 0); destruct (Rle_dec (K - v) 0); lra. }
  lra.
Qed.

Section MonteCarloMore.
Context {RNG : NumpyRandom}.

Lemma gbm_step_sized (r sigma dt : R) (N : Z) (t : nat) (paths paths' : ndarray)
    (g g' : rng_state) :
  draws_sized -> (0 <= N)%Z ->
  columns_sized (Z.to_nat N) paths ->
  gbm_step r sigma dt N t paths g = (Ok paths', g') ->
  columns_sized (Z.to_nat N) paths'.
Proof.
  intros Hdraw HN Hall. unfold gbm_step, bindM, np_random_standard_normal, lift.
  destruct (Z.ltb N 0); [discriminate | ].
  pose proof (Hdraw (Z.to_nat N) g) as Hz.
  destruct (standard_normal (Z.to_nat N) g) as [z g1]. simpl in Hz.
  unfold get_col. destruct (nth_error paths (t - 1)) as [prev | ] eqn:Hprev;
    [ | discriminate].
  assert (Hp : length prev = Z.to_nat N).
  { apply nth_error_In in Hprev. unfold columns_sized in Hall.
    rewrite Forall_forall in Hall. now apply Hall. }
  unfold set_col. destruct (t <? length paths)%nat; [ | discriminate].
  intros Heq. inversion Heq. subst. apply replace_nth_Forall; [assumption | ].
  rewrite length_map, length_combine. lia.
Qed.

Lemma for_each_gbm_sized (r sigma dt : R) (N : Z) (ts : list nat) :
  draws_sized -> (0 <= N)%Z ->
  forall (paths paths' : ndarray) (g g' : rng_state),
    columns_sized (Z.to_nat N) paths ->
    for_each ts (gbm_step r sigma dt N) paths g = (Ok paths', g') ->
    columns_sized (Z.to_nat N) paths'.
Proof.
  intros Hdraw HN.
  induction ts as [ | t ts IH]; intros paths paths' g g' Hall; simpl.
  - unfold ret. intros Heq. inversion Heq. now subst.
  - unfold bindM.
    destruct (gbm_step r sigma dt N t paths g) as [[p1 | e] g1] eqn:Hstep;
      [ | discriminate].
    apply IH. now apply (gbm_step_sized r sigma dt N t paths p1 g g1).
Qed.

(** With a generator that returns full draws, the simulation ends with a
    last column of [N] terminal prices. *)
Lemma terminal_prices (S T r sigma : R) (N seed : Z) (g : rng_state) :
  draws_sized -> valid_seed seed -> (0 <= N)%Z -> 0 <= T ->
  exists paths last g',
    simulate_paths S T r sigma N seed g = (Ok paths, g') /\
    get_last_col paths = Ok last /\
    length last = Z.to_nat N.
Proof.
  intros Hdraw Hseed HN HT.
  destruct (simulate_paths_ok S T r sigma N seed g Hseed HN HT)
    as (p & g' & Hrun & Hlen).
  assert (Hall : columns_sized (Z.to_nat N) p).
  { revert Hrun. unfold simulate_paths, bindM.
    rewrite np_random_seed_ok by assumption. unfold lift, np_zeros.
    destruct ((N <? 0)%Z || (mc_steps T + 1 <? 0)%Z)%bool; [discriminate | ].
    destruct (fill_col (repeat (repeat 0 (Z.to_nat N)) (Z.to_nat (mc_steps T + 1))) 0 S)
      as [p0 | e] eqn:Hfill; [ | discriminate].
    apply for_each_gbm_sized; try assumption.
    revert Hfill. unfold fill_col, get_col.
    destruct (nth_error (repeat (repeat 0 (Z.to_nat N)) (Z.to_nat (mc_steps T + 1))) 0)
      as [c | ] eqn:Hc; [ | discriminate].
    cbn [bind]. unfold set_col.
    match goal with
    | |- context [Nat.ltb ?a ?b] => destruct (Nat.ltb a b); [ | discriminate]
    end.
    intros Heq. inversion Heq. apply replace_nth_Forall.
    - apply Forall_forall. intros d Hd. apply repeat_spec in Hd. subst d.
      apply repeat_length.
    - apply nth_error_In in Hc. apply repeat_spec in Hc. subst c.
      now rewrite length_map, repeat_length. }
  destruct p as [ | c l]; [simpl in Hlen; lia | ].
  destruct (nth_error (c :: l) (length (c :: l) - 1)) as [d | ] eqn:Hd.
  - exists (c :: l), d, g'. split; [exact Hrun | ].
    split; [unfold get_last_col, get_col; now rewrite Hd | ].
    apply nth_error_In in Hd. unfold columns_sized in Hall.
    rewrite Forall_forall in Hall. now apply Hall.
  - apply nth_error_None in Hd. simpl in Hd. lia.
Qed.

Lemma np_mean_nonempty (a : list R) :
  a <> [] -> np_mean a = Fin (fold_right Rplus 0 a / INR (length a)).
Proof. destruct a; [congruence | reflexivity]. Qed.

(** The two prices in terms of the terminal prices of one simulation *)
Lemma monte_carlo_prices (S K T r sigma : R) (N seed : Z) (g : rng_state) :
  draws_sized -> valid_seed seed -> (1 <= N)%Z -> 0 <= T ->
  exists paths last g',
    simulate_paths S T r sigma N seed g = (Ok paths, g') /\
    get_last_col paths = Ok last /\
    length last = Z.to_nat N /\
    monte_carlo_call S K T r sigma N seed g
    = (Ok (Fin (exp (- r * T) *
                (fold_right Rplus 0 (map (fun v => Rmax (v - K) 0) last)
                 / INR (Z.to_nat N)))), g') /\
    monte_carlo_put S K T r sigma N seed g
    = (Ok (Fin (exp (- r * T) *
                (fold_right Rplus 0 (map (fun v => Rmax (K - v) 0) last)
                 / INR (Z.to_nat N)))), g').
Proof.
  intros Hdraw Hseed HN HT.
  destruct (terminal_prices S T r sigma N seed g Hdraw Hseed) as
    (p & last & g' & Hrun & Hlast & Hlen); [lia | assumption | ].
  exists p, last, g'. split; [exact Hrun | ]. split; [exact Hlast | ].
  split; [exact Hlen | ].
  unfold monte_carlo_call, monte_carlo_put, bindM. rewrite Hrun.
  unfold lift. rewrite Hlast. unfold ret.
  assert (Hne : forall f : R -> R, map f last <> []).
  { intros f Hf. apply (f_equal (@length R)) in Hf.
    rewrite length_map in Hf. simpl in Hf. lia. }
  rewrite !np_mean_nonempty by apply Hne.
  rewrite !length_map, Hlen. split; reflexivity.
Qed.

(** X14. With a seed numpy accepts, at least one path and [T >= 0], both
    simulation pricers return a number, never nan and never an error, and
    that number is not negative, whatever [S], [K], [r] and [sigma] are. *)
Theorem monte_carlo_price_nonneg (S K T r sigma : R) (N seed : Z)
    (g : rng_state) :
  draws_sized -> valid_seed seed -> (1 <= N)%Z -> 0 <= T ->
  exists c p g',
    monte_carlo_call S K T r sigma N seed g = (Ok (Fin c), g') /\
    monte_carlo_put S K T r sigma N seed g = (Ok (Fin p), g') /\
    0 <= c /\ 0 <= p.
Proof.
  intros Hdraw Hseed HN HT.
  destruct (monte_carlo_prices S K T r sigma N seed g Hdraw Hseed HN HT)
    as (paths & last & g' & _ & _ & Hlen & Hc & Hp).
  do 3 eexists. split; [exact Hc | ]. split; [exact Hp | ].
  assert (Hn : 0 < INR (Z.to_nat N)) by (apply lt_0_INR; lia).
  pose proof (exp_pos (- r * T)) as He.
  assert (Hpay : forall f : R -> R, (forall v, 0 <= f v) ->
            0 <= exp (- r * T) * (fold_right Rplus 0 (map f last) / INR (Z.to_nat N))).
  { intros f Hf. apply Rmult_le_pos; [lra | ].
    apply Rmult_le_pos; [ | apply Rlt_le; now apply Rinv_0_lt_compat].
    apply sum_nonneg. apply Forall_forall. intros v Hv.
    apply in_map_iff in Hv. destruct Hv as (w & <- & _). apply Hf. }
  split; apply Hpay; intros v; apply Rmax_r.
Qed.

(** X15. The call and put estimates of one seed come from the same
    terminal prices, and their difference is the discounted mean terminal
    price less the discounted strike: put-call parity holds sample by
    sample. *)
Theorem monte_carlo_sample_parity (S K T r sigma : R) (N seed : Z)
    (g : rng_state) :
  draws_sized -> valid_seed seed -> (1 <= N)%Z -> 0 <= T ->
  exists paths last c p g',
    simulate_paths S T r sigma N seed g = (Ok paths, g') /\
    get_last_col paths = Ok last /\
    monte_carlo_call S K T r sigma N seed g = (Ok (Fin c), g') /\
    monte_carlo_put S K T r sigma N seed g = (Ok (Fin p), g') /\
    c - p = exp (- r * T) * (fold_right Rplus 0 last / INR (length last) - K).
Proof.
  intros Hdraw Hseed HN HT.
  destruct (monte_carlo_prices S K T r sigma N seed g Hdraw Hseed HN HT)
    as (paths & last & g' & Hrun & Hlast & Hlen & Hc & Hp).
  exists paths, last. do 3 eexists.
  split; [exact Hrun | ]. split; [exact Hlast | ].
  split; [exact Hc | ]. split; [exact Hp | ].
  assert (Hn : INR (Z.to_nat N) <> 0) by (apply not_0_INR; lia).
  pose proof (payoff_sum_parity K last) as Hpar.
  rewrite Hlen in *.
  set (sc := fold_right Rplus 0 (map (fun v => Rmax (v - K) 0) last)) in *.
  set (sp := fold_right Rplus 0 (map (fun v => Rmax (K - v) 0) last)) in *.
  set (sl := fold_right Rplus 0 last) in *.
  transitivity (exp (- r * T) * ((sc - sp) / INR (Z.to_nat N))); [field; exact Hn | ].
  rewrite Hpar. field. exact Hn.
Qed.

(** *** Maturities below zero *)

Lemma mc_steps_negative (T : R) :
  (T * 252 <= -2 -> (mc_steps T + 1 < 0)%Z) /\
  (-2 < T * 252 <= -1 -> mc_steps T = (-1)%Z) /\
  (-1 < T * 252 < 0 -> mc_steps T = 0%Z).
Proof.
  unfold mc_steps.
  repeat split; intros Hy;
    pose proof (int_of_float_negative (T * 252)) as Hb;
    (assert (Hneg : T * 252 < 0) by lra); specialize (Hb Hneg);
    destruct Hb as [Hlo Hhi].
  - apply lt_IZR. rewrite plus_IZR. simpl. lra.
  - assert (H1 : (-2 < int_of_float (T * 252))%Z) by (apply lt_IZR; simpl; lra).
    assert (H2 : (int_of_float (T * 252) < 0)%Z) by (apply lt_IZR; simpl; lra).
    lia.
  - assert (H1 : (-1 < int_of_float (T * 252))%Z) by (apply lt_IZR; simpl; lra).
    assert (H2 : (int_of_float (T * 252) < 1)%Z) by (apply lt_IZR; simpl; lra).
    lia.
Qed.

Lemma simulate_paths_zero_steps (S T r sigma : R) (N seed : Z) (g : rng_state) :
  mc_steps T = 0%Z -> (0 <= N)%Z -> valid_seed seed ->
  simulate_paths S T r sigma N seed g
    = (Ok [repeat S (Z.to_nat N)], seed_state seed).
Proof.
  intros Hsteps HN Hseed.
  unfold simulate_paths, bindM. rewrite np_random_seed_ok by assumption.
  rewrite Hsteps. unfold lift, np_zeros.
  destruct (Z.ltb_spec N 0); [lia | ]. simpl.
  unfold ret. do 2 f_equal. f_equal.
  induction (Z.to_nat N) as [ | n IH]; simpl; congruence.
Qed.


End MonteCarloMore.

(** *** The simulated horizon *)

(** X17. For [T > 0] the [steps] increments of size [dt] that the path
    loop simulates add up to a horizon within one increment of [T * T], and
    to [T * T] exactly when [T] is a whole number of trading days; it is
    the maturity [T] only for maturities from one year to less than a year
    and a day. *)
Theorem simulated_horizon (T : R) :
  0 < T ->
  T * T - mc_dt T < IZR (mc_steps T) * mc_dt T <= T * T /\
  (forall n : Z, T * 252 = IZR n -> IZR (mc_steps T) * mc_dt T = T * T) /\
  (IZR (mc_steps T) * mc_dt T = T -> 1 <= T < 1 + 1 / 252).
Proof.
  intros HT.
  destruct (int_of_float_bounds (T * 252)) as [Hlo Hhi]; [lra | ].
  fold (mc_steps T) in Hlo, Hhi. unfold mc_dt.
  set (n := IZR (mc_steps T)) in *.
  assert (Hb : T * T - T / 252 < n * (T / 252) <= T * T) by (split; nra).
  split; [exact Hb | ]. split.
  - intros m Hm. unfold n, mc_steps. rewrite Hm.
    unfold int_of_float. destruct (Rle_dec 0 (IZR m)) as [_ | Hn];
      [rewrite ZfloorZ | exfalso; apply Hn; lra].
    rewrite <- Hm. field.
  - intros Heq. assert (Hn : n = 252) by nra.
    lra.
Qed.

(** *** No volatility *)

Lemma nth_error_replace_nth {A : Type} (l : list A) (t : nat) (v : A) :
  (t < length l)%nat -> nth_error (replace_nth l t v) t = Some v.
Proof.
  revert t. induction l as [ | c l IH]; intros [ | t] Ht; simpl in *;
    try lia; [reflexivity | apply IH; lia].
Qed.

Lemma scale_constant_column (v q : R) (n : nat) (z : list R) :
  length z = n ->
  map (fun pz : R * R => fst pz * q) (combine (repeat v n) z) = repeat (v * q) n.
Proof.
  revert z. induction n as [ | n IH]; intros [ | z0 z] Hz; simpl in *;
    try discriminate; [reflexivity | ].
  f_equal. apply IH. lia.
Qed.

Section ZeroVolatility.
Context {RNG : NumpyRandom}.

Lemma gbm_step_zero_vol (r dt v : R) (N : Z) (t : nat) (paths : ndarray)
    (g : rng_state) :
  draws_sized -> (0 <= N)%Z -> (1 <= t < length paths)%nat ->
  nth_error paths (t - 1) = Some (repeat v (Z.to_nat N)) ->
  exists paths' g',
    gbm_step r 0 dt N t paths g = (Ok paths', g') /\
    length paths' = length paths /\
    nth_error paths' t = Some (repeat (v * exp (r * dt)) (Z.to_nat N)).
Proof.
  intros Hdraw HN Ht Hprev.
  unfold gbm_step, bindM, np_random_standard_normal, lift.
  destruct (Z.ltb_spec N 0); [lia | ].
  pose proof (Hdraw (Z.to_nat N) g) as Hz.
  destruct (standard_normal (Z.to_nat N) g) as [z g1]. simpl in Hz.
  unfold get_col. rewrite Hprev. unfold set_col.
  destruct (Nat.ltb_spec t (length paths)); [ | lia].
  eexists. eexists. split; [reflexivity | ].
  split; [apply replace_nth_length | ].
  rewrite nth_error_replace_nth by lia. f_equal.
  rewrite <- (scale_constant_column v (exp (r * dt)) (Z.to_nat N) z Hz).
  apply map_ext. intros [p0 z0]. simpl. f_equal. f_equal.
  rewrite half_inv. ring.
Qed.

Lemma for_each_zero_vol (r dt : R) (N : Z) (k : nat) :
  draws_sized -> (0 <= N)%Z ->
  forall (a : nat) (v : R) (paths : ndarray) (g : rng_state),
    (1 <= a)%nat -> (a - 1 + k < length paths)%nat ->
    nth_error paths (a - 1) = Some (repeat v (Z.to_nat N)) ->
    exists paths' g',
      for_each (seq a k) (gbm_step r 0 dt N) paths g = (Ok paths', g') /\
      length paths' = length paths /\
      nth_error paths' (a - 1 + k)
        = Some (repeat (v * exp (r * dt) ^ k) (Z.to_nat N)).
Proof.
  intros Hdraw HN. induction k as [ | k IH]; intros a v paths g Ha Hlen Hcol.
  - exists paths, g. split; [reflexivity | ]. split; [reflexivity | ].
    rewrite Nat.add_0_r, Hcol. do 2 f_equal. simpl. ring.
  - destruct (gbm_step_zero_vol r dt v N a paths g Hdraw HN) as
      (p1 & g1 & Hstep & Hl1 & Hc1); [lia | exact Hcol | ].
    destruct (IH (Datatypes.S a) (v * exp (r * dt)) p1 g1) as
      (p2 & g2 & Hrest & Hl2 & Hc2).
    + lia.
    + rewrite Hl1. lia.
    + replace (Datatypes.S a - 1)%nat with a by lia. exact Hc1.
    + exists p2, g2. split; [ | split].
      * simpl. unfold bindM. rewrite Hstep. exact Hrest.
      * congruence.
      * replace (a - 1 + Datatypes.S k)%nat with (Datatypes.S a - 1 + k)%nat by lia.
        rewrite Hc2. do 2 f_equal. simpl. ring.
Qed.

(** X18. With [sigma = 0] the draws play no part: every path grows by the
    factor [exp (r * dt)] at each of the [steps] steps, and the prices are
    the discounted payoffs of that one terminal price. *)
Theorem zero_volatility_prices (S K T r : R) (N seed : Z) (g : rng_state) :
  draws_sized -> valid_seed seed -> (1 <= N)%Z -> 0 <= T ->
  let terminal := S * exp (r * mc_dt T) ^ Z.to_nat (mc_steps T) in
  exists g',
    monte_carlo_call S K T r 0 N seed g
      = (Ok (Fin (exp (- r * T) * Rmax (terminal - K) 0)), g') /\
    monte_carlo_put S K T r 0 N seed g
      = (Ok (Fin (exp (- r * T) * Rmax (K - terminal) 0)), g').
Proof.
  intros Hdraw Hseed HN HT terminal.
  assert (Hsteps : (0 <= mc_steps T)%Z) by (apply int_of_float_nonneg; lra).
  assert (Hn : (0 < Z.to_nat N)%nat) by lia.
  assert (Hsim : exists paths g',
            simulate_paths S T r 0 N seed g = (Ok paths, g') /\
            get_last_col paths = Ok (repeat terminal (Z.to_nat N))).
  { unfold simulate_paths, bindM. rewrite np_random_seed_ok by assumption.
    unfold lift, np_zeros.
    destruct (Z.ltb_spec N 0); [lia | ].
    destruct (Z.ltb_spec (mc_steps T + 1) 0); [lia | ]. cbn [orb].
    replace (Z.to_nat (mc_steps T + 1))
      with (Datatypes.S (Z.to_nat (mc_steps T))) by lia.
    cbn [repeat fill_col get_col nth_error bind set_col length Nat.ltb Nat.leb
         replace_nth].
    rewrite map_repeat.
    destruct (for_each_zero_vol r (mc_dt T) N (Z.to_nat (mc_steps T)) Hdraw
                (ltac:(lia)) 1%nat S
                (repeat S (Z.to_nat N)
                   :: repeat (repeat 0 (Z.to_nat N)) (Z.to_nat (mc_steps T)))
                (seed_state seed)) as (p & g' & Hrun & Hlen & Hcol).
    - lia.
    - simpl. rewrite repeat_length. lia.
    - reflexivity.
    - exists p, g'. split; [exact Hrun | ].
      simpl in Hlen. rewrite repeat_length in Hlen.
      destruct p as [ | c l]; [simpl in Hlen; lia | ].
      unfold get_last_col, get_col.
      replace (length (c :: l) - 1)%nat with (1 - 1 + Z.to_nat (mc_steps T))%nat
        by (rewrite Hlen; lia).
      now rewrite Hcol. }
  destruct Hsim as (paths & g' & Hrun & Hlast).
  exists g'. unfold monte_carlo_call, monte_carlo_put, bindM. rewrite Hrun.
  unfold lift. rewrite Hlast. unfold ret.
  rewrite !map_repeat, !np_mean_repeat by assumption.
  split; reflexivity.
Qed.

End ZeroVolatility.

(** * The sensitivity grid *)

Lemma replace_nth_app {A : Type} (done rest : list A) (z v : A) :
  replace_nth (done ++ z :: rest) (length done) v = done ++ v :: rest.
Proof.
  induction done as [ | c done IH]; simpl; [reflexivity | now rewrite IH].
Qed.

Lemma nth_error_app_here {A : Type} (done rest : list A) (z : A) :
  nth_error (done ++ z :: rest) (length done) = Some z.
Proof.
  induction done as [ | c done IH]; simpl; [reflexivity | exact IH].
Qed.

Lemma set_cell_here (above below : grid) (done rest : list R) (z v : R) :
  set_cell (above ++ (done ++ z :: rest) :: below) (length above) (length done) v
  = Ok (above ++ (done ++ v :: rest) :: below).
Proof.
  unfold set_cell. rewrite nth_error_app_here.
  destruct (Nat.ltb_spec (length done) (length (done ++ z :: rest)));
    [ | rewrite length_app in *; simpl in *; lia].
  now rewrite !replace_nth_app.
Qed.

(** The inner loop fills the cells of row [i] from left to right. *)
Lemma fill_row (f : R -> pyresult R) (i : nat) (xs : list R) :
  (forall y, In y xs -> returns (f y)) ->
  forall (above below : grid) (done rest : list R),
    i = length above -> length rest = length xs ->
    for_enum (combine (seq (length done) (length xs)) xs)
      (fun j y h => v <- f y ;; set_cell h i j v)
      (above ++ (done ++ rest) :: below)
    = Ok (above ++ (done ++ map (fun y => value_of (f y)) xs) :: below).
Proof.
  intros Hf above below. induction xs as [ | y xs IH]; intros done rest Hi Hlen.
  - destruct rest; [reflexivity | discriminate].
  - destruct rest as [ | z rest]; [discriminate | ].
    destruct (Hf y) as (v & Hv); [now left | ].
    cbn [length seq combine for_enum]. rewrite Hv. cbn [bind].
    subst i. rewrite set_cell_here. cbn [bind].
    specialize (IH (fun y' Hy' => Hf y' (or_intror Hy')) (done ++ [v]) rest
                  eq_refl ltac:(simpl in Hlen; lia)).
    rewrite length_app in IH. simpl in IH. rewrite Nat.add_1_r in IH.
    rewrite <- !app_assoc in IH. simpl in IH.
    rewrite IH. simpl. now rewrite Hv.
Qed.

(** The outer loop fills the rows from top to bottom. *)
Lemma fill_grid (f : R -> R -> pyresult R) (xs : list R) (vols : list R) :
  (forall vol y, In vol vols -> In y xs -> returns (f y vol)) ->
  forall (above below : grid),
    length below = length vols ->
    Forall (fun row => length row = length xs) below ->
    for_enum (combine (seq (length above) (length vols)) vols)
      (fun i vol h =>
         for_enum (enumerate xs) (fun j y h => v <- f y vol ;; set_cell h i j v) h)
      (above ++ below)
    = Ok (above ++ map (fun vol => map (fun y => value_of (f y vol)) xs) vols).
Proof.
  intros Hf. induction vols as [ | vol vols IH]; intros above below Hlen Hrows.
  - destruct below; [reflexivity | discriminate].
  - destruct below as [ | row below]; [discriminate | ].
    inversion Hrows as [ | ? ? Hrow Hbelow]; subst.
    cbn [length seq combine for_enum]. unfold enumerate at 1.
    pose proof (fill_row (fun y => f y vol) (length above) xs
                  (fun y Hy => Hf vol y (or_introl eq_refl) Hy)
                  above below [] row eq_refl Hrow) as Hfill.
    cbn [length app] in Hfill. rewrite Hfill. cbn [bind].
    specialize (IH (fun vol' y Hv Hy => Hf vol' y (or_intror Hv) Hy)
                  (above ++ [map (fun y => value_of (f y vol)) xs]) below
                  ltac:(simpl in Hlen; lia) Hbelow).
    rewrite length_app in IH. simpl in IH. rewrite Nat.add_1_r in IH.
    rewrite <- !app_assoc in IH. simpl in IH. exact IH.
Qed.

Lemma np_linspace_length (start stop : R) (num : nat) :
  length (np_linspace start stop num) = num.
Proof.
  unfold np_linspace. destruct (1 <? num)%nat;
    rewrite ?replace_nth_length, length_map, length_seq; reflexivity.
Qed.

(** With [start <= stop] no point of the grid lies outside
    [[start, stop]]. *)
Lemma np_linspace_bounds (start stop : R) (num : nat) :
  start <= stop ->
  Forall (fun y => start <= y <= stop) (np_linspace start stop num).
Proof.
  intros Hle. unfold np_linspace.
  assert (Hy : Forall (fun y => start <= y <= stop)
                 (map (fun i => INR i * ((stop - start) / INR (num - 1)) + start)
                    (seq 0 num))).
  { apply Forall_forall. intros y Hy. apply in_map_iff in Hy.
    destruct Hy as (i & <- & Hi). apply in_seq in Hi.
    destruct (Nat.eq_dec num 1) as [-> | Hn].
    { assert (i = 0%nat) as -> by lia. simpl. lra. }
    assert (Hpos : 0 < INR (num - 1)) by (apply lt_0_INR; lia).
    assert (Hi0 : 0 <= INR i) by apply pos_INR.
    assert (Hi1 : INR i <= INR (num - 1)) by (apply le_INR; lia).
    assert (Hq : 0 <= INR i / INR (num - 1) <= 1).
    { split.
      - apply Rmult_le_pos; [assumption | apply Rlt_le; now apply Rinv_0_lt_compat].
      - apply Rmult_le_reg_r with (INR (num - 1)); [assumption | ].
        unfold Rdiv. rewrite Rmult_assoc, Rinv_l by lra. lra. }
    replace (INR i * ((stop - start) / INR (num - 1)))
      with (INR i / INR (num - 1) * (stop - start)) by (field; lra).
    split; nra. }
  destruct (1 <? num)%nat; [ | exact Hy].
  apply replace_nth_Forall; [exact Hy | lra].
Qed.

Section HeatmapFacts.
Context {N01 : StdNormal}.
Import SensitivityAnalysis.
Import String.
Local Open Scope string_scope.

Lemma key_eqb_eq (k1 k2 : string * string) : key_eqb k1 k2 = true <-> k1 = k2.
Proof.
  destruct k1 as [a1 b1], k2 as [a2 b2]. unfold key_eqb. simpl.
  rewrite Bool.andb_true_iff, !String.eqb_eq. split.
  - intros [-> ->]. reflexivity.
  - intros H. inversion H. split; reflexivity.
Qed.

Lemma dict_get_missing {V : Type} (d : list ((string * string) * V))
    (key : string * string) (default : V) :
  ~ In key (map fst d) -> dict_get d key default = default.
Proof.
  intros Hn. unfold dict_get.
  destruct (find (fun kv => key_eqb (fst kv) key) d) as [kv | ] eqn:Hf;
    [ | reflexivity].
  apply find_some in Hf. destruct Hf as [Hin Heq].
  apply key_eqb_eq in Heq. elim Hn. rewrite <- Heq. now apply in_map.
Qed.

Lemma no_rho_key (option_type : string) :
  ~ In (option_type, "rho") (map fst greek_func).
Proof.
  simpl. intros H.
  repeat (destruct H as [H | H]; [inversion H | ]). exact H.
Qed.

(** X19. A pair of option type and Greek that is not a key of the table,
    such as any pair with the Greek ["rho"], silently gives the heatmap of
    the call delta. *)
Theorem heatmap_missing_key (S_base K T r sigma : R) :
  (forall option_type greek,
     ~ In (option_type, greek) (map fst greek_func) ->
     generate_heatmap S_base K T r sigma option_type greek
     = generate_heatmap S_base K T r sigma "call" "delta") /\
  (forall option_type,
     generate_heatmap S_base K T r sigma option_type "rho"
     = generate_heatmap S_base K T r sigma "call" "delta").
Proof.
  assert (H : forall option_type greek,
            ~ In (option_type, greek) (map fst greek_func) ->
            generate_heatmap S_base K T r sigma option_type greek
            = generate_heatmap S_base K T r sigma "call" "delta").
  { intros ot g Hn. unfold generate_heatmap.
    now rewrite (dict_get_missing greek_func (ot, g) _ Hn). }
  split; [exact H | ].
  intros ot. apply H. apply no_rho_key.
Qed.

(** Every function the lookup can return first evaluates the expression
    for [d1], so it returns on accepted inputs and raises what that
    expression raises. *)
Lemma looked_up_greek (key : string * string) :
  let func := dict_get greek_func key OptionGreeks.delta_call in
  (forall S K T r sigma, ~ rejected S K T sigma -> returns (func S K T r sigma)) /\
  (forall S K T r sigma e,
     d1_expr S K T r sigma = Raise e -> func S K T r sigma = Raise e).
Proof.
  assert (Hall : Forall (fun f : greek_fn =>
            (forall S K T r sigma, ~ rejected S K T sigma ->
               returns (f S K T r sigma)) /\
            (forall S K T r sigma e,
               d1_expr S K T r sigma = Raise e -> f S K T r sigma = Raise e))
            (OptionGreeks.delta_call :: map snd greek_func)).
  { cbn [map snd greek_func].
    repeat (apply Forall_cons; [split | ]); try apply Forall_nil;
      try (intros S K T r sigma Hacc;
           destruct (analytical_accepted S K T r sigma Hacc)
             as (_ & _ & H1 & H2 & H3 & H4 & H5 & H6 & _);
           eexists; eassumption);
      intros S K T r sigma e He;
      unfold OptionGreeks.delta_call, OptionGreeks.delta_put, OptionGreeks.gamma,
        OptionGreeks.vega, OptionGreeks.theta_call, OptionGreeks.theta_put;
      now rewrite He. }
  intros func. rewrite Forall_forall in Hall. apply Hall.
  unfold func, dict_get.
  destruct (find (fun kv => key_eqb (fst kv) key) greek_func) as [kv | ] eqn:Hf;
    [ | now left].
  right. apply find_some in Hf. apply in_map. apply Hf.
Qed.

Lemma grid_zeros_shape (n m : nat) :
  List.length (grid_zeros n m) = n /\
  Forall (fun row => List.length row = m) (grid_zeros n m).
Proof.
  unfold grid_zeros. split; [apply repeat_length | ].
  apply Forall_forall. intros row Hrow. apply repeat_spec in Hrow. subst row.
  apply repeat_length.
Qed.

(** With a positive base price, strike and maturity every cell of the grid
    is an accepted input. *)
Lemma grid_cells_accepted (S_base K T : R) :
  0 < S_base -> 0 < K -> 0 < T ->
  forall vol y,
    In vol (np_linspace 0.05 0.8 20) ->
    In y (np_linspace (S_base * 0.7) (S_base * 1.3) 20) ->
    ~ rejected y K T vol.
Proof.
  intros HS HK HT vol y Hvol Hy.
  pose proof (np_linspace_bounds 0.05 0.8 20 ltac:(lra)) as Hb1.
  pose proof (np_linspace_bounds (S_base * 0.7) (S_base * 1.3) 20 ltac:(lra)) as Hb2.
  rewrite Forall_forall in Hb1, Hb2.
  specialize (Hb1 vol Hvol). specialize (Hb2 y Hy).
  assert (Hq : 0 < y / K) by (apply ratio_pos; lra).
  intros [H | [H | [H | H]]]; lra.
Qed.

Lemma generate_heatmap_value (S_base K T r sigma : R)
    (option_type greek : string) :
  0 < S_base -> 0 < K -> 0 < T ->
  generate_heatmap S_base K T r sigma option_type greek
  = Ok (np_linspace (S_base * 0.7) (S_base * 1.3) 20,
        np_linspace 0.05 0.8 20,
        map (fun vol =>
               map (fun S =>
                      value_of
                        (dict_get greek_func (option_type, greek)
                           OptionGreeks.delta_call S K T r vol))
                 (np_linspace (S_base * 0.7) (S_base * 1.3) 20))
          (np_linspace 0.05 0.8 20)).
Proof.
  intros HS HK HT. unfold generate_heatmap.
  set (S_range := np_linspace (S_base * 0.7) (S_base * 1.3) 20).
  set (vol_range := np_linspace 0.05 0.8 20).
  set (func := dict_get greek_func (option_type, greek) OptionGreeks.delta_call).
  destruct (grid_zeros_shape (List.length vol_range) (List.length S_range))
    as [Hrows Hcols].
  pose proof (fill_grid (fun y vol => func y K T r vol) S_range vol_range)
    as Hfill.
  specialize (Hfill
    (fun vol y Hvol Hy =>
       proj1 (looked_up_greek (option_type, greek)) y K T r vol
         (grid_cells_accepted S_base K T HS HK HT vol y Hvol Hy))
    [] (grid_zeros (List.length vol_range) (List.length S_range)) Hrows Hcols).
  cbn [List.length app] in Hfill. cbv beta in Hfill.
  unfold enumerate at 1. rewrite Hfill. reflexivity.
Qed.

(** X20. With a positive base price, strike and maturity,
    [generate_heatmap] returns for every option type and Greek, whatever
    [sigma] it is given: the twenty spot prices from [0.7 * S_base] to
    [1.3 * S_base], the twenty volatilities from [0.05] to [0.8], and the
    grid whose row [i] and column [j] holds the looked-up Greek at spot
    [S_range[j]] and volatility [vol_range[i]]. The argument [sigma] is
    never used. *)
Theorem heatmap_cells (S_base K T r sigma : R) (option_type greek : string) :
  0 < S_base -> 0 < K -> 0 < T ->
  let S_range := np_linspace (S_base * 0.7) (S_base * 1.3) 20 in
  let vol_range := np_linspace 0.05 0.8 20 in
  let func := dict_get greek_func (option_type, greek) OptionGreeks.delta_call in
  generate_heatmap S_base K T r sigma option_type greek
  = Ok (S_range, vol_range,
        map (fun vol => map (fun S => value_of (func S K T r vol)) S_range)
          vol_range) /\
  List.length S_range = 20%nat /\ List.length vol_range = 20%nat /\
  Forall (fun S => S_base * 0.7 <= S <= S_base * 1.3) S_range /\
  Forall (fun vol => 0.05 <= vol <= 0.8) vol_range.
Proof.
  intros HS HK HT S_range vol_range func.
  split; [now apply generate_heatmap_value | ].
  split; [apply np_linspace_length | ].
  split; [apply np_linspace_length | ].
  split; apply np_linspace_bounds; lra.
Qed.

Lemma grid_cells_valid (S_base K T : R) :
  0 < S_base -> 0 < K -> 0 < T ->
  forall vol y,
    In vol (np_linspace 0.05 0.8 20) ->
    In y (np_linspace (S_base * 0.7) (S_base * 1.3) 20) ->
    valid y K T vol.
Proof.
  intros HS HK HT vol y Hvol Hy.
  pose proof (np_linspace_bounds 0.05 0.8 20 ltac:(lra)) as Hb1.
  pose proof (np_linspace_bounds (S_base * 0.7) (S_base * 1.3) 20 ltac:(lra)) as Hb2.
  rewrite Forall_forall in Hb1, Hb2.
  specialize (Hb1 vol Hvol). specialize (Hb2 y Hy).
  repeat split; lra.
Qed.

(** Every cell of a returned grid satisfies what the looked-up Greek
    satisfies on valid inputs. *)
Lemma heatmap_cells_satisfy (S_base K T r : R) (func : greek_fn)
    (P : R -> Prop) :
  0 < S_base -> 0 < K -> 0 < T ->
  (forall S vol, valid S K T vol -> P (value_of (func S K T r vol))) ->
  Forall (Forall P)
    (map (fun vol =>
            map (fun S => value_of (func S K T r vol))
              (np_linspace (S_base * 0.7) (S_base * 1.3) 20))
       (np_linspace 0.05 0.8 20)).
Proof.
  intros HS HK HT HP.
  apply Forall_forall. intros row Hrow. apply in_map_iff in Hrow.
  destruct Hrow as (vol & <- & Hvol).
  apply Forall_forall. intros v Hv. apply in_map_iff in Hv.
  destruct Hv as (y & <- & Hy).
  apply HP. now apply (grid_cells_valid S_base K T).
Qed.

Lemma looked_up_entries :
  dict_get greek_func ("call", "delta") OptionGreeks.delta_call
    = OptionGreeks.delta_call /\
  dict_get greek_func ("put", "delta") OptionGreeks.delta_call
    = OptionGreeks.delta_put /\
  dict_get greek_func ("put", "gamma") OptionGreeks.delta_call
    = OptionGreeks.gamma /\
  dict_get greek_func ("call", "vega") OptionGreeks.delta_call
    = OptionGreeks.vega.
Proof. repeat split; reflexivity. Qed.


Lemma np_linspace_first (start stop : R) :
  exists rest, np_linspace start stop 20 = start :: rest.
Proof.
  unfold np_linspace. cbn [Nat.ltb Nat.leb seq map replace_nth Nat.sub].
  eexists. f_equal. simpl. ring.
Qed.


End HeatmapFacts.

(** * Further properties of the solver *)

Section SolverMore.
Context {N01 : StdNormal} {OPT : ScalarMinimizer}.
Import ImpliedVolatility.

(** X23. On inputs with [K <> 0], [S / K > 0] and [T > 0] the value a solver
    returns lies within the search bounds [[0.01, 3.0]] and is the same for
    every [initial_guess]: the guess is no starting point of the search, it
    is only the value handed back when the search raises. *)
Theorem solver_ignores_initial_guess (S K T r market_price : R) :
  ~ unpriceable S K T ->
  exists vc vp,
    0.01 <= vc <= 3.0 /\ 0.01 <= vp <= 3.0 /\
    forall initial_guess,
      solve_call S K T r market_price initial_guess = Ok vc /\
      solve_put S K T r market_price initial_guess = Ok vp.
Proof.
  intros Hn.
  destruct (solvers_search S K T r market_price Hn)
    as (vc & vp & Hc & Hp & _ & _ & Hall).
  exists vc, vp. split; [exact Hc | ]. split; [exact Hp | exact Hall].
Qed.

End SolverMore.

(** * The interfaces are inhabited *)

(** ** The normal law *)

(** The Gaussian bell [exp (- x^2 / 2)], its primitive vanishing at [0] and
    the least upper bound of that primitive give a density and a
    distribution function with all the properties [StdNormal] asks for. *)

Definition bell (y : R) : R := exp (- (y * y) / 2).

Lemma bell_pos (y : R) : 0 < bell y.
Proof. apply exp_pos. Qed.

Lemma bell_0 : bell 0 = 1.
Proof.
  unfold bell. replace (- (0 * 0) / 2) with 0 by field. apply exp_0.
Qed.

Lemma bell_even (y : R) : bell (- y) = bell y.
Proof. unfold bell. apply (f_equal exp). field. Qed.

Lemma bell_deriv (y : R) : derivable_pt_lim bell y (- y * bell y).
Proof.
  unfold bell. eapply dl_eq.
  - apply (dl_comp (fun z => - (z * z) / 2) exp).
    + apply dl_div_const.
      apply (derivable_pt_lim_opp (fun z => z * z)).
      apply (dl_mult (fun z => z) (fun z => z)); apply dl_id.
    + apply derivable_pt_lim_exp.
  - field.
Qed.

Lemma bell_continuous (y : R) : continuity_pt bell y.
Proof.
  apply derivable_continuous_pt. exists (- y * bell y). apply bell_deriv.
Qed.

(** A primitive of the bell on [[-a, a]] *)
Definition bell_primitive_on (a : R) : R -> R :=
  match Rle_dec (- a) a with
  | left h =>
      proj1_sig (@RiemannInt_P30 bell (- a) a h (fun y _ => bell_continuous y))
  | right _ => fun _ => 0
  end.

Lemma bell_primitive_on_spec (a : R) :
  0 <= a -> antiderivative bell (bell_primitive_on a) (- a) a.
Proof.
  intros Ha. unfold bell_primitive_on.
  destruct (Rle_dec (- a) a) as [h | h]; [ | lra].
  apply proj2_sig.
Qed.

Lemma bell_primitive_on_deriv (a y : R) :
  - a <= y <= a -> derivable_pt_lim (bell_primitive_on a) y (bell y).
Proof.
  intros Hy.
  destruct (bell_primitive_on_spec a) as [Hd _]; [lra | ].
  destruct (Hd y Hy) as [[l Hl] Heq]. simpl in Heq. now rewrite Heq.
Qed.

(** The primitive of the bell that vanishes at [0] *)
Definition bell_integral (y : R) : R :=
  bell_primitive_on (Rabs y + 1) y - bell_primitive_on (Rabs y + 1) 0.

Lemma bell_integral_on (a y : R) :
  Rabs y + 1 <= a ->
  bell_integral y = bell_primitive_on a y - bell_primitive_on a 0.
Proof.
  intros Ha. unfold bell_integral.
  assert (Hyb : - (Rabs y + 1) <= y <= Rabs y + 1).
  { unfold Rabs. destruct (Rcase_abs y); lra. }
  pose proof (Rabs_pos y) as Hy0.
  set (b := Rabs y + 1) in *.
  assert (Hb0 : 0 <= b) by (unfold b; lra).
  clearbody b.
  assert (Hb : antiderivative bell (bell_primitive_on b) (- b) b)
    by now apply bell_primitive_on_spec.
  assert (Hab : antiderivative bell (bell_primitive_on a) (- b) b).
  { split; [ | lra]. intros z Hz.
    destruct (bell_primitive_on_spec a) as [Hd _]; [lra | ].
    apply Hd. lra. }
  destruct (antiderivative_Ucte bell _ _ (- b) b Hb Hab) as (c & Hc).
  rewrite (Hc y Hyb), (Hc 0) by lra. ring.
Qed.

Lemma bell_integral_0 : bell_integral 0 = 0.
Proof. unfold bell_integral. ring. Qed.

Lemma bell_integral_deriv (y : R) : derivable_pt_lim bell_integral y (bell y).
Proof.
  set (a := Rabs y + 2).
  apply (derivable_pt_lim_locally_ext
           (fun z => bell_primitive_on a z - bell_primitive_on a 0)
           bell_integral y (y - 1) (y + 1)); [lra | | ].
  - intros z Hz. symmetry. apply bell_integral_on. unfold a.
    unfold Rabs. destruct (Rcase_abs z); destruct (Rcase_abs y); lra.
  - eapply dl_eq.
    + apply dl_minus; [ | apply dl_const].
      apply bell_primitive_on_deriv. unfold a.
      unfold Rabs. destruct (Rcase_abs y); lra.
    + ring.
Qed.

Lemma bell_integral_incr (a b : R) : a <= b -> bell_integral a <= bell_integral b.
Proof.
  intros Hab. apply (nonneg_derivative_incr bell_integral bell); [assumption | | ].
  - intros c _. apply bell_integral_deriv.
  - intros c _. apply Rlt_le, bell_pos.
Qed.

Lemma bell_integral_odd (y : R) : bell_integral (- y) = - bell_integral y.
Proof.
  assert (Hd : forall c, derivable_pt_lim
                 (fun z => bell_integral z + bell_integral (- z)) c ((fun _ => 0) c)).
  { intros c. eapply dl_eq.
    - apply dl_plus; [apply bell_integral_deriv | ].
      apply (dl_comp (fun z => - z) bell_integral).
      + apply (derivable_pt_lim_opp (fun z => z)). apply dl_id.
      + apply bell_integral_deriv.
    - rewrite bell_even. ring. }
  assert (H0 : bell_integral 0 + bell_integral (- 0) = 0).
  { rewrite Ropp_0, bell_integral_0. ring. }
  destruct (Rtotal_order 0 y) as [Hy | [<- | Hy]].
  - destruct (MVT_cor2 _ _ 0 y Hy (fun c _ => Hd c)) as (c & Hc & _). lra.
  - rewrite Ropp_0, bell_integral_0. ring.
  - destruct (MVT_cor2 _ _ y 0 Hy (fun c _ => Hd c)) as (c & Hc & _). lra.
Qed.

Lemma bell_below_exp (y : R) : bell y <= exp (/ 2 - y).
Proof.
  unfold bell.
  destruct (Rle_lt_or_eq_dec (- (y * y) / 2) (/ 2 - y)) as [Hlt | Heq].
  - pose proof (Rle_0_sqr (y - 1)) as Hsq. unfold Rsqr in Hsq. lra.
  - apply Rlt_le. now apply exp_increasing.
  - rewrite Heq. lra.
Qed.

Lemma bell_integral_bounded (y : R) : bell_integral y <= exp (/ 2).
Proof.
  destruct (Rle_lt_dec y 0) as [Hy | Hy].
  - pose proof (bell_integral_incr y 0 Hy) as H. rewrite bell_integral_0 in H.
    pose proof (exp_pos (/ 2)). lra.
  - assert (H : (fun z => - exp (/ 2 - z) - bell_integral z) 0
                <= (fun z => - exp (/ 2 - z) - bell_integral z) y).
    { apply (nonneg_derivative_incr
               (fun z => - exp (/ 2 - z) - bell_integral z)
               (fun z => exp (/ 2 - z) - bell z) 0 y); [lra | | ].
      - intros c _. eapply dl_eq.
        + apply dl_minus; [ | apply bell_integral_deriv].
          apply (derivable_pt_lim_opp (fun z => exp (/ 2 - z))).
          apply (dl_comp (fun z => / 2 - z) exp).
          * apply dl_minus; [apply dl_const | apply dl_id].
          * apply derivable_pt_lim_exp.
        + ring.
      - intros c _. pose proof (bell_below_exp c). lra. }
    cbv beta in H. rewrite bell_integral_0 in H.
    replace (/ 2 - 0) with (/ 2) in H by ring.
    pose proof (exp_pos (/ 2 - y)). lra.
Qed.

Definition bell_integral_values (m : R) : Prop := exists y, m = bell_integral y.

Lemma bell_integral_values_bound : bound bell_integral_values.
Proof.
  exists (exp (/ 2)). intros m (y & ->). apply bell_integral_bounded.
Qed.

Lemma bell_integral_values_inhabited : exists m, bell_integral_values m.
Proof. exists (bell_integral 0). now exists 0. Qed.

(** The total mass of the bell over the positive half line *)
Definition half_mass : R :=
  proj1_sig (completeness bell_integral_values bell_integral_values_bound
               bell_integral_values_inhabited).

Lemma half_mass_lub : is_lub bell_integral_values half_mass.
Proof. unfold half_mass. apply proj2_sig. Qed.

Lemma bell_integral_le_half_mass (y : R) : bell_integral y <= half_mass.
Proof.
  destruct half_mass_lub as [Hub _]. apply Hub. now exists y.
Qed.

Lemma half_mass_pos : 0 < half_mass.
Proof.
  apply Rlt_le_trans with (bell_integral 1); [ | apply bell_integral_le_half_mass].
  destruct (MVT_cor2 bell_integral bell 0 1 Rlt_0_1
              (fun c _ => bell_integral_deriv c)) as (c & Hc & _).
  rewrite bell_integral_0 in Hc. pose proof (bell_pos c). lra.
Qed.

Definition gauss_pdf (y : R) : R := bell y / (2 * half_mass).

Definition gauss_cdf (y : R) : R := / 2 + bell_integral y / (2 * half_mass).

Lemma gauss_pdf_0 : 0 < gauss_pdf 0.
Proof.
  unfold gauss_pdf. apply Rdiv_lt_0_compat; [apply bell_pos | ].
  pose proof half_mass_pos. lra.
Qed.

Lemma gauss_pdf_gauss (y : R) : gauss_pdf y = gauss_pdf 0 * exp (- (y * y) / 2).
Proof.
  unfold gauss_pdf. rewrite bell_0. fold (bell y). field.
  pose proof half_mass_pos. lra.
Qed.

Lemma gauss_cdf_deriv (y : R) : derivable_pt_lim gauss_cdf y (gauss_pdf y).
Proof.
  unfold gauss_cdf, gauss_pdf. eapply dl_eq.
  - apply dl_plus; [apply dl_const | ].
    apply dl_div_const. apply bell_integral_deriv.
  - ring.
Qed.

Lemma gauss_cdf_range (y : R) : 0 <= gauss_cdf y <= 1.
Proof.
  pose proof half_mass_pos as Hm.
  pose proof (bell_integral_le_half_mass y) as Hu.
  pose proof (bell_integral_le_half_mass (- y)) as Hl.
  rewrite bell_integral_odd in Hl.
  unfold gauss_cdf.
  assert (Hq : -1 <= bell_integral y / half_mass <= 1).
  { split.
    - apply Rmult_le_reg_r with half_mass; [assumption | ].
      unfold Rdiv. rewrite Rmult_assoc, Rinv_l by lra. lra.
    - apply Rmult_le_reg_r with half_mass; [assumption | ].
      unfold Rdiv. rewrite Rmult_assoc, Rinv_l by lra. lra. }
  replace (bell_integral y / (2 * half_mass))
    with (bell_integral y / half_mass / 2) by (field; lra).
  lra.
Qed.

Lemma gauss_cdf_sym (y : R) : gauss_cdf (- y) = 1 - gauss_cdf y.
Proof.
  unfold gauss_cdf. rewrite bell_integral_odd. field.
  pose proof half_mass_pos. lra.
Qed.

#[export] Instance gauss_normal : StdNormal := {|
  norm_cdf := gauss_cdf;
  norm_pdf := gauss_pdf;
  norm_pdf_0 := gauss_pdf_0;
  norm_pdf_gauss := gauss_pdf_gauss;
  norm_cdf_deriv := gauss_cdf_deriv;
  norm_cdf_range := gauss_cdf_range;
  norm_cdf_sym := gauss_cdf_sym
|}.

(** ** A generator and a minimizer *)

(** A counter-based stand-in for numpy's generator: the state is a counter,
    seeding sets it to the seed, and a draw of [n] numbers reads [n]
    consecutive values off it. *)
#[export] Instance counter_rng : NumpyRandom := {|
  rng_state := Z;
  seed_state := fun seed => seed;
  standard_normal := fun n g =>
    (map (fun i => IZR ((g + Z.of_nat i) mod 5) - 2) (seq 0 n),
     (g + Z.of_nat n)%Z)
|}.

(** A one-probe stand-in for the bounded minimizer: it evaluates the
    objective at the middle of the bounds and returns that point. *)
Definition probe_midpoint (f : R -> pyresult R) (a b : R)
  : pyresult OptimizeResult :=
  match f ((a + b) / 2) with
  | Ok _ => Ok {| x := (a + b) / 2; success := true |}
  | Raise e => Raise e
  end.

Lemma probe_midpoint_propagates (f : R -> pyresult R) (a b : R) (e : pyexn) :
  a < b -> (forall y, a <= y <= b -> f y = Raise e) ->
  probe_midpoint f a b = Raise e.
Proof.
  intros Hab Hf. unfold probe_midpoint. rewrite Hf by lra. reflexivity.
Qed.

Lemma probe_midpoint_total (f : R -> pyresult R) (a b : R) :
  a < b -> (forall y, a <= y <= b -> returns (f y)) ->
  exists res, probe_midpoint f a b = Ok res /\ a <= x res <= b.
Proof.
  intros Hab Hf. unfold probe_midpoint.
  destruct (Hf ((a + b) / 2)) as (v & Hv); [lra | ].
  rewrite Hv. eexists. split; [reflexivity | simpl; lra].
Qed.

#[export] Instance midpoint_minimizer : ScalarMinimizer := {|
  minimize_scalar := probe_midpoint;
  minimize_scalar_propagates := probe_midpoint_propagates;
  minimize_scalar_total := probe_midpoint_total
|}.

(** A generator state left behind by earlier draws *)
Definition stale_state : @rng_state counter_rng := 7%Z.

(** * The claims on concrete inputs *)

(** The inputs of the concrete scenario of the specification are valid. *)
Lemma valid_example : valid 100 100 1 0.2.
Proof. unfold valid. lra. Defined.

(** [put_call_parity] at [S = K = 100], [T = 1], [r = 0.05], [sigma = 0.2] *)
Lemma put_call_parity_witness :
  valid 100 100 1 0.2 /\
  exists c p,
    black_scholes_call 100 100 1 0.05 0.2 = Ok c /\
    black_scholes_put 100 100 1 0.05 0.2 = Ok p /\
    c - p = 100 - 100 * exp (- (0.05) * 1) /\
    Rabs ((c - p) - (100 - 100 * exp (- (0.05) * 1))) <= 1e-9.
Proof.
  split; [exact valid_example | ].
  exact (put_call_parity 100 100 1 0.05 0.2 valid_example).
Defined.

(** [price_monotonicity] from [S = 100] to [110] and from [sigma = 0.2] to
    [0.3] *)
Lemma price_monotonicity_witness :
  valid 100 100 1 0.2 /\ 100 <= 110 /\ 0.2 <= 0.3 /\
  exists c cS cv p pS pv,
    black_scholes_call 100 100 1 0.05 0.2 = Ok c /\
    black_scholes_call 110 100 1 0.05 0.2 = Ok cS /\
    black_scholes_call 100 100 1 0.05 0.3 = Ok cv /\
    black_scholes_put 100 100 1 0.05 0.2 = Ok p /\
    black_scholes_put 110 100 1 0.05 0.2 = Ok pS /\
    black_scholes_put 100 100 1 0.05 0.3 = Ok pv /\
    c <= cS /\ c <= cv /\ pS <= p /\ p <= pv.
Proof.
  split; [exact valid_example | ].
  split; [lra | ]. split; [lra | ].
  apply (price_monotonicity 100 100 1 0.05 0.2 110 0.3 valid_example); lra.
Defined.


(** [greeks_sign_conventions] at the same inputs *)
Lemma greeks_sign_conventions_witness :
  valid 100 100 1 0.2 /\
  exists dc dp g v,
    OptionGreeks.delta_call 100 100 1 0.05 0.2 = Ok dc /\ 0 <= dc <= 1 /\
    OptionGreeks.delta_put 100 100 1 0.05 0.2 = Ok dp /\ -1 <= dp <= 0 /\
    OptionGreeks.gamma 100 100 1 0.05 0.2 = Ok g /\ 0 <= g /\
    OptionGreeks.vega 100 100 1 0.05 0.2 = Ok v /\ 0 <= v.
Proof.
  split; [exact valid_example | ].
  exact (greeks_sign_conventions 100 100 1 0.05 0.2 valid_example).
Defined.

(** The default seed of the simulation pricer *)
Lemma valid_seed_42 : valid_seed 42.
Proof. unfold valid_seed. lia. Defined.

(** [steps_truncate] at [T = 0.01] with a thousand paths *)
Lemma steps_truncate_witness :
  0 < 0.01 /\ (0 <= 1000)%Z /\ valid_seed 42 /\
  IZR (mc_steps 0.01) <= 0.01 * 252 < IZR (mc_steps 0.01) + 1 /\
  exists paths g',
    simulate_paths 100 0.01 0.05 0.2 1000 42 stale_state = (Ok paths, g') /\
    length paths = (Z.to_nat (mc_steps 0.01) + 1)%nat.
Proof.
  split; [lra | ]. split; [lia | ]. split; [exact valid_seed_42 | ].
  apply (steps_truncate 100 0.01 0.05 0.2 1000 42 stale_state);
    [lra | lia | exact valid_seed_42].
Defined.



(** [monte_carlo_reproducible] for a call started in a stale generator state
    and one started in a fresh one *)
Lemma monte_carlo_reproducible_witness :
  fst (monte_carlo_call 100 100 1 0.05 0.2 1000 42 stale_state)
    = fst (monte_carlo_call 100 100 1 0.05 0.2 1000 42 (seed_state 0)) /\
  fst (monte_carlo_put 100 100 1 0.05 0.2 1000 42 stale_state)
    = fst (monte_carlo_put 100 100 1 0.05 0.2 1000 42 (seed_state 0)).
Proof.
  exact (monte_carlo_reproducible 100 100 1 0.05 0.2 1000 42 stale_state
           (seed_state 0)).
Defined.



(** ** Where the claims of the specification fail *)

Lemma returns_not_raises {A : Type} (c : pyresult A) : returns c -> ~ raises c.
Proof. intros (a & ->) (e & He). discriminate. Qed.


Lemma mc_steps_example : mc_steps 0.01 = 2%Z.
Proof.
  unfold mc_steps, int_of_float.
  destruct (Rle_dec 0 (0.01 * 252)); [ | lra].
  apply Zfloor_eq. simpl. lra.
Qed.

(** C2, as stated, fails at [T = 0.01]: [T * 252 = 2.52] is truncated to [2]
    steps where rounding gives [3], and the step size is not [T / steps]. *)
Lemma steps_not_rounded :
  0 < 0.01 /\
  mc_steps 0.01 = 2%Z /\
  ~ nearest_integer (0.01 * 252) (mc_steps 0.01) /\
  mc_dt 0.01 <> 0.01 / IZR (mc_steps 0.01).
Proof.
  split; [lra | ]. split; [exact mc_steps_example | ].
  rewrite mc_steps_example. split.
  - intros Hn. specialize (Hn 3%Z).
    rewrite (Rabs_right (0.01 * 252 - 2)) in Hn by lra.
    rewrite (Rabs_left (0.01 * 252 - 3)) in Hn by lra. lra.
  - unfold mc_dt. lra.
Qed.



(** ** The further properties on concrete inputs *)

Lemma counter_rng_draws_sized : @draws_sized counter_rng.
Proof.
  intros n g. simpl. now rewrite length_map, length_seq.
Defined.

(** [theta_parity] at [S = K = 100], [T = 1], [r = 0.05], [sigma = 0.2] *)
Lemma theta_parity_witness :
  valid 100 100 1 0.2 /\
  exists tc tp,
    OptionGreeks.theta_call 100 100 1 0.05 0.2 = Ok tc /\
    OptionGreeks.theta_put 100 100 1 0.05 0.2 = Ok tp /\
    tc - tp = - (0.05) * 100 * exp (- (0.05) * 1) / 365.
Proof.
  split; [exact valid_example | ].
  exact (theta_parity 100 100 1 0.05 0.2 valid_example).
Defined.

(** [rho_parity] at the same inputs *)
Lemma rho_parity_witness :
  valid 100 100 1 0.2 /\
  exists rc rp,
    OptionGreeks.rho_call 100 100 1 0.05 0.2 = Ok rc /\
    OptionGreeks.rho_put 100 100 1 0.05 0.2 = Ok rp /\
    rc - rp = 100 * 1 * exp (- (0.05) * 1) / 100.
Proof.
  split; [exact valid_example | ].
  exact (rho_parity 100 100 1 0.05 0.2 valid_example).
Defined.

(** [vega_from_gamma] at the same inputs *)
Lemma vega_from_gamma_witness :
  valid 100 100 1 0.2 /\
  exists g v,
    OptionGreeks.gamma 100 100 1 0.05 0.2 = Ok g /\
    OptionGreeks.vega 100 100 1 0.05 0.2 = Ok v /\
    v = g * 100 ^ 2 * 0.2 * 1 / 100.
Proof.
  split; [exact valid_example | ].
  exact (vega_from_gamma 100 100 1 0.05 0.2 valid_example).
Defined.

(** [theta_rho_signs] at the same inputs *)
Lemma theta_rho_signs_witness :
  valid 100 100 1 0.2 /\
  exists tc rc rp,
    OptionGreeks.theta_call 100 100 1 0.05 0.2 = Ok tc /\
    OptionGreeks.rho_call 100 100 1 0.05 0.2 = Ok rc /\
    OptionGreeks.rho_put 100 100 1 0.05 0.2 = Ok rp /\
    (0 <= 0.05 -> tc <= 0) /\ 0 <= rc /\ rp <= 0.
Proof.
  split; [exact valid_example | ].
  exact (theta_rho_signs 100 100 1 0.05 0.2 valid_example).
Defined.

(** [price_upper_bounds] at the same inputs *)
Lemma price_upper_bounds_witness :
  valid 100 100 1 0.2 /\
  exists c p,
    black_scholes_call 100 100 1 0.05 0.2 = Ok c /\
    black_scholes_put 100 100 1 0.05 0.2 = Ok p /\
    c <= 100 /\ p <= 100 * exp (- (0.05) * 1).
Proof.
  split; [exact valid_example | ].
  exact (price_upper_bounds 100 100 1 0.05 0.2 valid_example).
Defined.

(** [delta_is_spot_sensitivity] at the same inputs *)
Lemma delta_is_spot_sensitivity_witness :
  valid 100 100 1 0.2 /\
  exists dc dp,
    OptionGreeks.delta_call 100 100 1 0.05 0.2 = Ok dc /\
    OptionGreeks.delta_put 100 100 1 0.05 0.2 = Ok dp /\
    derivable_pt_lim
      (fun y => value_of (black_scholes_call y 100 1 0.05 0.2)) 100 dc /\
    derivable_pt_lim
      (fun y => value_of (black_scholes_put y 100 1 0.05 0.2)) 100 dp.
Proof.
  split; [exact valid_example | ].
  exact (delta_is_spot_sensitivity 100 100 1 0.05 0.2 valid_example).
Defined.

(** [gamma_is_delta_sensitivity] at the same inputs *)
Lemma gamma_is_delta_sensitivity_witness :
  valid 100 100 1 0.2 /\
  exists g,
    OptionGreeks.gamma 100 100 1 0.05 0.2 = Ok g /\
    derivable_pt_lim
      (fun y => value_of (OptionGreeks.delta_call y 100 1 0.05 0.2)) 100 g /\
    derivable_pt_lim
      (fun y => value_of (OptionGreeks.delta_put y 100 1 0.05 0.2)) 100 g.
Proof.
  split; [exact valid_example | ].
  exact (gamma_is_delta_sensitivity 100 100 1 0.05 0.2 valid_example).
Defined.

(** [vega_is_vol_sensitivity] at the same inputs *)
Lemma vega_is_vol_sensitivity_witness :
  valid 100 100 1 0.2 /\
  exists v,
    OptionGreeks.vega 100 100 1 0.05 0.2 = Ok v /\
    derivable_pt_lim
      (fun y => value_of (black_scholes_call 100 100 1 0.05 y)) 0.2 (100 * v) /\
    derivable_pt_lim
      (fun y => value_of (black_scholes_put 100 100 1 0.05 y)) 0.2 (100 * v).
Proof.
  split; [exact valid_example | ].
  exact (vega_is_vol_sensitivity 100 100 1 0.05 0.2 valid_example).
Defined.

(** [rho_is_rate_sensitivity] at the same inputs *)
Lemma rho_is_rate_sensitivity_witness :
  valid 100 100 1 0.2 /\
  exists rc rp,
    OptionGreeks.rho_call 100 100 1 0.05 0.2 = Ok rc /\
    OptionGreeks.rho_put 100 100 1 0.05 0.2 = Ok rp /\
    derivable_pt_lim
      (fun y => value_of (black_scholes_call 100 100 1 y 0.2)) 0.05 (100 * rc) /\
    derivable_pt_lim
      (fun y => value_of (black_scholes_put 100 100 1 y 0.2)) 0.05 (100 * rp).
Proof.
  split; [exact valid_example | ].
  exact (rho_is_rate_sensitivity 100 100 1 0.05 0.2 valid_example).
Defined.

(** [theta_is_time_decay] at the same inputs *)
Lemma theta_is_time_decay_witness :
  valid 100 100 1 0.2 /\
  exists tc tp,
    OptionGreeks.theta_call 100 100 1 0.05 0.2 = Ok tc /\
    OptionGreeks.theta_put 100 100 1 0.05 0.2 = Ok tp /\
    derivable_pt_lim
      (fun y => value_of (black_scholes_call 100 100 y 0.05 0.2)) 1 (- 365 * tc) /\
    derivable_pt_lim
      (fun y => value_of (black_scholes_put 100 100 y 0.05 0.2)) 1 (- 365 * tp).
Proof.
  split; [exact valid_example | ].
  exact (theta_is_time_decay 100 100 1 0.05 0.2 valid_example).
Defined.

(** [price_monotone_in_strike_and_rate] from [K = 100] to [110] and from
    [r = 0.05] to [0.06] *)
Lemma price_monotone_in_strike_and_rate_witness :
  valid 100 100 1 0.2 /\ 100 <= 110 /\ 0.05 <= 0.06 /\
  exists c cK cr p pK pr,
    black_scholes_call 100 100 1 0.05 0.2 = Ok c /\
    black_scholes_call 100 110 1 0.05 0.2 = Ok cK /\
    black_scholes_call 100 100 1 0.06 0.2 = Ok cr /\
    black_scholes_put 100 100 1 0.05 0.2 = Ok p /\
    black_scholes_put 100 110 1 0.05 0.2 = Ok pK /\
    black_scholes_put 100 100 1 0.06 0.2 = Ok pr /\
    cK <= c /\ c <= cr /\ p <= pK /\ pr <= p.
Proof.
  split; [exact valid_example | ]. split; [lra | ]. split; [lra | ].
  apply (price_monotone_in_strike_and_rate 100 100 1 0.05 0.2 110 0.06
           valid_example); lra.
Defined.

(** [call_monotone_in_maturity] from one year to two *)
Lemma call_monotone_in_maturity_witness :
  valid 100 100 1 0.2 /\ 0 <= 0.05 /\ 1 <= 2 /\
  exists c cT,
    black_scholes_call 100 100 1 0.05 0.2 = Ok c /\
    black_scholes_call 100 100 2 0.05 0.2 = Ok cT /\
    c <= cT.
Proof.
  split; [exact valid_example | ]. split; [lra | ]. split; [lra | ].
  apply (call_monotone_in_maturity 100 100 1 0.05 0.2 2 valid_example); lra.
Defined.

(** [monte_carlo_price_nonneg] for a thousand paths over one year *)
Lemma monte_carlo_price_nonneg_witness :
  @draws_sized counter_rng /\ valid_seed 42 /\ (1 <= 1000)%Z /\ 0 <= 1 /\
  exists c p g',
    monte_carlo_call 100 100 1 0.05 0.2 1000 42 stale_state = (Ok (Fin c), g') /\
    monte_carlo_put 100 100 1 0.05 0.2 1000 42 stale_state = (Ok (Fin p), g') /\
    0 <= c /\ 0 <= p.
Proof.
  split; [exact counter_rng_draws_sized | ]. split; [exact valid_seed_42 | ].
  split; [lia | ]. split; [lra | ].
  apply (monte_carlo_price_nonneg 100 100 1 0.05 0.2 1000 42 stale_state
           counter_rng_draws_sized valid_seed_42); [lia | lra].
Defined.

(** [monte_carlo_sample_parity] for the same simulation *)
Lemma monte_carlo_sample_parity_witness :
  @draws_sized counter_rng /\ valid_seed 42 /\ (1 <= 1000)%Z /\ 0 <= 1 /\
  exists paths last c p g',
    simulate_paths 100 1 0.05 0.2 1000 42 stale_state = (Ok paths, g') /\
    get_last_col paths = Ok last /\
    monte_carlo_call 100 100 1 0.05 0.2 1000 42 stale_state = (Ok (Fin c), g') /\
    monte_carlo_put 100 100 1 0.05 0.2 1000 42 stale_state = (Ok (Fin p), g') /\
    c - p = exp (- (0.05) * 1)
            * (fold_right Rplus 0 last / INR (length last) - 100).
Proof.
  split; [exact counter_rng_draws_sized | ]. split; [exact valid_seed_42 | ].
  split; [lia | ]. split; [lra | ].
  apply (monte_carlo_sample_parity 100 100 1 0.05 0.2 1000 42 stale_state
           counter_rng_draws_sized valid_seed_42); [lia | lra].
Defined.

(** [simulated_horizon] at two years: the loop covers four *)
Lemma simulated_horizon_witness :
  0 < 2 /\
  IZR (mc_steps 2) * mc_dt 2 = 2 * 2.
Proof.
  split; [lra | ].
  apply (proj1 (proj2 (simulated_horizon 2 ltac:(lra))) 504%Z). lra.
Defined.

(** [zero_volatility_prices] for a thousand paths over one year *)
Lemma zero_volatility_prices_witness :
  @draws_sized counter_rng /\ valid_seed 42 /\ (1 <= 1000)%Z /\ 0 <= 1 /\
  exists g',
    monte_carlo_call 100 100 1 0.05 0 1000 42 stale_state
    = (Ok (Fin (exp (- (0.05) * 1)
                * Rmax (100 * exp (0.05 * mc_dt 1) ^ Z.to_nat (mc_steps 1) - 100)
                    0)), g').
Proof.
  split; [exact counter_rng_draws_sized | ]. split; [exact valid_seed_42 | ].
  split; [lia | ]. split; [lra | ].
  destruct (zero_volatility_prices 100 100 1 0.05 1000 42 stale_state
              counter_rng_draws_sized valid_seed_42 ltac:(lia) ltac:(lra))
    as (g' & Hc & _).
  exists g'. exact Hc.
Defined.

Section GridWitnesses.
Import String.
Local Open Scope string_scope.

(** [heatmap_cells] for a base price and strike of 100 over one year *)
Lemma heatmap_cells_witness :
  0 < 100 /\ 0 < 100 /\ 0 < 1 /\
  List.length (np_linspace (100 * 0.7) (100 * 1.3) 20) = 20%nat /\
  exists h,
    SensitivityAnalysis.generate_heatmap 100 100 1 0.05 0.2 "put" "theta"
    = Ok (np_linspace (100 * 0.7) (100 * 1.3) 20, np_linspace 0.05 0.8 20, h).
Proof.
  split; [lra | ]. split; [lra | ]. split; [lra | ].
  destruct (heatmap_cells 100 100 1 0.05 0.2 "put" "theta"
              ltac:(lra) ltac:(lra) ltac:(lra))
    as (Hval & HlenS & _).
  split; [exact HlenS | ].
  eexists. exact Hval.
Defined.


End GridWitnesses.

(** [solver_ignores_initial_guess] at [S = K = 100], [T = 1] *)
Lemma solver_ignores_initial_guess_witness :
  ~ unpriceable 100 100 1 /\
  exists vc vp,
    0.01 <= vc <= 3.0 /\ 0.01 <= vp <= 3.0 /\
    forall initial_guess,
      ImpliedVolatility.solve_call 100 100 1 0.05 10.45 initial_guess = Ok vc /\
      ImpliedVolatility.solve_put 100 100 1 0.05 10.45 initial_guess = Ok vp.
Proof.
  split; [exact priceable_example | ].
  exact (solver_ignores_initial_guess 100 100 1 0.05 10.45 priceable_example).
Defined.
